(** * Route annotations: path derivation, enrichment and breadcrumbs

    A shallow embedding of the route module of spry
    ([pageRouteSchema], [isRouteSupplier], [pathExtensions], [enrichRoute]
    and the breadcrumb loop of [Routes.populate]) together with the
    properties its specification states about it.

    Strings are sequences of 8-bit code units (the separators ["."] and
    ["/"] are single units in every encoding the code meets); JavaScript
    values are the ones a parsed fence-attribute object can hold. *)

From Stdlib Require Import ZArith Ascii String List Bool Lia DecimalString.
From stdpp Require Import base option list strings gmap fin_maps.

Import ListNotations.
Local Open Scope string_scope.
Local Open Scope list_scope.

(** ** Strings as code-unit sequences *)

Module Str.

Definition chars (s : string) : list ascii := list_ascii_of_string s.
Definition str (cs : list ascii) : string := string_of_list_ascii cs.

(** [s.split(sep)] for a one-character separator: never empty, and
    [[""]] for the empty string. *)
Fixpoint split_on (sep : ascii) (cs : list ascii) : list (list ascii) :=
  match cs with
  | [] => [[]]
  | c :: r =>
      if Ascii.eqb c sep then [] :: split_on sep r
      else match split_on sep r with
           | [] => [[c]]
           | h :: t => (c :: h) :: t
           end
  end.

(** [a.join(sep)] on an array of strings *)
Fixpoint join_with (sep : list ascii) (l : list (list ascii)) : list ascii :=
  match l with
  | [] => []
  | [x] => x
  | x :: r => x ++ sep ++ join_with sep r
  end.

Definition split (sep : ascii) (s : string) : list string :=
  map str (split_on sep (chars s)).

Definition join (sep : string) (l : list string) : string :=
  str (join_with (chars sep) (map chars l)).

(** [a.slice(0, -1)] *)
Definition slice_0_m1 {A} (l : list A) : list A := removelast l.

(** [a.slice(1)] *)
Definition slice_1 {A} (l : list A) : list A := tl l.

(** [a.map((e, i, a) => f(e, i, a))]: the callback sees the index and the
    whole array. *)
Fixpoint mapi_from {A B} (f : A -> nat -> B) (i : nat) (l : list A) : list B :=
  match l with
  | [] => []
  | x :: r => f x i :: mapi_from f (S i) r
  end.

Definition map_eia {A B} (f : A -> nat -> list A -> B) (a : list A) : list B :=
  mapi_from (fun e i => f e i a) 0 a.

Fixpoint drop_while {A} (p : A -> bool) (l : list A) : list A :=
  match l with
  | [] => []
  | x :: r => if p x then drop_while p r else l
  end.

Fixpoint take_while {A} (p : A -> bool) (l : list A) : list A :=
  match l with
  | [] => []
  | x :: r => if p x then x :: take_while p r else []
  end.

End Str.

(** ** jsr:@std/path (POSIX flavour)

    [basename], [dirname] and [join] are imported from the standard path
    library.  The definitions below follow its POSIX implementation: the
    backwards scans of [basename] and [dirname] are written on the reversed
    code-unit list, and [normalize] works segment by segment. *)

Module Path.
Import Str.

Definition isPosixPathSeparator (c : ascii) : bool := Ascii.eqb c "/".
Definition notSep (c : ascii) : bool := negb (isPosixPathSeparator c).

(** Scan from the end: skip trailing separators, then take code units up
    to the previous separator.  A path without any non-separator code
    unit is returned whole. *)
Definition lastPathSegment (p : list ascii) : list ascii :=
  match drop_while isPosixPathSeparator (rev p) with
  | [] => p
  | r => rev (take_while notSep r)
  end.

(** Trailing separators are removed, index 0 is never removed. *)
Definition stripTrailingSeparators (seg : list ascii) : list ascii :=
  match seg with
  | [] => []
  | c :: r => c :: rev (drop_while isPosixPathSeparator (rev r))
  end.

Definition basename_chars (p : list ascii) : list ascii :=
  stripTrailingSeparators (lastPathSegment p).

(** The scan of [dirname] runs over indices [len-1 .. 1]; index 0 only
    decides between ["/"] and ["."] when no separator was matched. *)
Definition dirname_chars (p : list ascii) : list ascii :=
  match p with
  | [] => ["."%char]
  | c0 :: r =>
      match drop_while notSep (drop_while isPosixPathSeparator (rev r)) with
      | [] => if isPosixPathSeparator c0 then ["/"%char] else ["."%char]
      | _ :: before => stripTrailingSeparators (c0 :: rev before)
      end
  end.

Definition dotdot : list ascii := chars "..".

(** One step of [normalizeString]: [acc] is the list of segments kept so
    far, last segment first. *)
Definition normalizeStep (allowAboveRoot : bool)
    (acc : list (list ascii)) (seg : list ascii) : list (list ascii) :=
  if decide (seg = []) then acc
  else if decide (seg = ["."%char]) then acc
  else if decide (seg = dotdot) then
    match acc with
    | [] => if allowAboveRoot then [dotdot] else []
    | top :: below =>
        if decide (top = dotdot)
        then (if allowAboveRoot then dotdot :: acc else acc)
        else below
    end
  else seg :: acc.

Definition normalizeString (p : list ascii) (allowAboveRoot : bool) : list ascii :=
  join_with ["/"%char]
    (rev (fold_left (normalizeStep allowAboveRoot) (split_on "/" p) [])).

Definition starts_with_sep (p : list ascii) : bool :=
  match p with c :: _ => isPosixPathSeparator c | [] => false end.

Definition ends_with_sep (p : list ascii) : bool := starts_with_sep (rev p).

Definition normalize_chars (p : list ascii) : list ascii :=
  match p with
  | [] => ["."%char]
  | _ =>
      let isAbsolute := starts_with_sep p in
      let trailingSeparator := ends_with_sep p in
      let p1 := normalizeString p (negb isAbsolute) in
      let p2 := if decide (p1 = []) then (if isAbsolute then [] else ["."%char]) else p1 in
      let p3 := if decide (p2 = []) then p2
                else if trailingSeparator then p2 ++ ["/"%char] else p2 in
      if isAbsolute then "/"%char :: p3 else p3
  end.

Definition join_chars (paths : list (list ascii)) : list ascii :=
  match paths with
  | [] => ["."%char]
  | _ =>
      let joined := join_with ["/"%char] (filter (fun p => p <> []) paths) in
      if decide (joined = []) then ["."%char] else normalize_chars joined
  end.

Definition basename (p : string) : string := str (basename_chars (chars p)).
Definition dirname (p : string) : string := str (dirname_chars (chars p)).
Definition normalize (p : string) : string := str (normalize_chars (chars p)).
Definition join (paths : list string) : string := str (join_chars (map chars paths)).

End Path.

(** ** [pathExtensions] *)

(** The value returned by [autoMaterializable()]: a path, or the literal
    [false]. *)
Inductive AutoPath :=
| AutoFalse
| AutoPathOf (p : string).

Record PathExtensions := {
  pe_basename : string;
  pe_extensions : list string;
  pe_terminal : string;
  pe_autoMaterializable : unit -> AutoPath
}.

Definition pathExtensions (path : string) : PathExtensions :=
  let name := Path.basename path in
  let parts := Str.split "." name in
  let exts :=
    Str.map_eia (fun e i a => if Nat.ltb i (length a - 1) then "." +:+ e else e)
                (Str.slice_1 parts) in
  let terminal := default "" (last exts) in
  {| pe_basename := name;
     pe_extensions := exts;
     pe_terminal := terminal;
     pe_autoMaterializable := fun _ =>
       if Nat.ltb (length exts) 2 then AutoFalse
       else
         let base := nth 0 parts "" in
         let penultimate := nth (length parts - 2) parts "" in
         AutoPathOf
           (Path.join
              [Path.dirname path;
               base +:+ "." +:+
               Str.join "." (Str.slice_0_m1 (Str.split "." penultimate)) +:+
               "auto." +:+ penultimate]) |}.

(** ** JavaScript values

    The attribute object of a cell is parsed data: primitives, arrays and
    plain objects.  Objects keep their properties in insertion order, so
    they are association lists; a key is looked up and assigned at its
    first occurrence.  An array is an object too, so it also carries named
    properties next to its elements.  Finite numbers are represented by
    integers. *)

Set Warnings "-register-all".

Inductive jsnum :=
| NFinite (z : Z)
| NNaN
| NInfinity (negative : bool).

Inductive value :=
| VUndefined
| VNull
| VBool (b : bool)
| VNumber (n : jsnum)
| VString (s : string)
| VArray (elems : list value) (props : list (string * value))
| VObject (props : list (string * value)).

Inductive JsError :=
| TypeError (msg : string).

Inductive completion (A : Type) :=
| Normal (a : A)
| Throw (e : JsError).
Arguments Normal {A} a.
Arguments Throw {A} e.

Module Js.

(** [typeof v] *)
Definition typeof (v : value) : string :=
  match v with
  | VUndefined => "undefined"
  | VNull => "object"
  | VBool _ => "boolean"
  | VNumber _ => "number"
  | VString _ => "string"
  | VArray _ _ => "object"
  | VObject _ => "object"
  end.

(** [ToBoolean v] *)
Definition truthy (v : value) : bool :=
  match v with
  | VUndefined | VNull => false
  | VBool b => b
  | VNumber (NFinite z) => negb (Z.eqb z 0)
  | VNumber NNaN => false
  | VNumber (NInfinity _) => true
  | VString s => negb (String.eqb s "")
  | VArray _ _ | VObject _ => true
  end.

Fixpoint assoc_get (k : string) (ps : list (string * value)) : option value :=
  match ps with
  | [] => None
  | (k', v) :: r => if String.eqb k k' then Some v else assoc_get k r
  end.

(** Assignment to a property: an existing key keeps its position, a new
    key is added last. *)
Fixpoint assoc_set (k : string) (v : value) (ps : list (string * value))
  : list (string * value) :=
  match ps with
  | [] => [(k, v)]
  | (k', v') :: r =>
      if String.eqb k k' then (k, v) :: r else (k', v') :: assoc_set k v r
  end.

(** Named properties of an object value; the keys used in this module are
    never array indices nor ["length"]. *)
Definition own_props (o : value) : option (list (string * value)) :=
  match o with
  | VObject ps => Some ps
  | VArray _ ps => Some ps
  | _ => None
  end.

(** [k in o], for [o] already known to be a non-null object *)
Definition has_property (k : string) (o : value) : bool :=
  match own_props o with
  | Some ps => bool_decide (is_Some (assoc_get k ps))
  | None => false
  end.

(** [o.k] *)
Definition get (o : value) (k : string) : completion value :=
  match o with
  | VNull =>
      Throw (TypeError ("Cannot read properties of null (reading '" +:+ k +:+ "')"))
  | VUndefined =>
      Throw (TypeError ("Cannot read properties of undefined (reading '" +:+ k +:+ "')"))
  | VObject ps | VArray _ ps => Normal (default VUndefined (assoc_get k ps))
  | _ => Normal VUndefined
  end.

(** [o.k = v] in strict mode; the result is the object after the
    assignment. *)
Definition set (o : value) (k : string) (v : value) : completion value :=
  match o with
  | VObject ps => Normal (VObject (assoc_set k v ps))
  | VArray es ps => Normal (VArray es (assoc_set k v ps))
  | VNull =>
      Throw (TypeError ("Cannot set properties of null (setting '" +:+ k +:+ "')"))
  | VUndefined =>
      Throw (TypeError ("Cannot set properties of undefined (setting '" +:+ k +:+ "')"))
  | _ => Throw (TypeError ("Cannot create property '" +:+ k +:+ "'"))
  end.

(** *** [JSON.stringify]

    [JSON.stringify(v)] with neither replacer nor indentation, on parsed
    data (no function, symbol or [toJSON] member).  The result is [None]
    where JavaScript answers [undefined]. *)

Definition dquote : ascii := "034"%char.
Definition backslash : ascii := "092"%char.

Definition hex_digit (n : nat) : ascii :=
  nth n (Str.chars "0123456789abcdef") "0"%char.

(** QuoteJSONString, one code unit at a time: the short escapes, [\u00xx]
    for the other control characters, and the unit itself otherwise. *)
Definition quote_unit (c : ascii) : list ascii :=
  let n := nat_of_ascii c in
  if Nat.eqb n 8 then [backslash; "b"%char]
  else if Nat.eqb n 9 then [backslash; "t"%char]
  else if Nat.eqb n 10 then [backslash; "n"%char]
  else if Nat.eqb n 12 then [backslash; "f"%char]
  else if Nat.eqb n 13 then [backslash; "r"%char]
  else if Nat.eqb n 34 then [backslash; dquote]
  else if Nat.eqb n 92 then [backslash; backslash]
  else if Nat.ltb n 32
       then [backslash; "u"%char; "0"%char; "0"%char;
             hex_digit (n / 16); hex_digit (n mod 16)]
       else [c].

Definition quote (s : string) : string :=
  Str.str (dquote :: flat_map quote_unit (Str.chars s) ++ [dquote]).

(** The decimal numeral of a non-negative integer. *)
Definition decimal (z : Z) : string := NilZero.string_of_uint (N.to_uint (Z.to_N z)).

(** The double nearest to the positive integer [x], ties to even: the
    integers a double holds have at most 53 significant bits. *)
Definition nearest_double (x : Z) : Z :=
  let sh := (Z.log2 x + 1 - 53)%Z in
  if (sh <=? 0)%Z then x
  else
    let q := Z.shiftr x sh in
    let r := Z.land x (Z.ones sh) in
    let half := Z.shiftl 1 (sh - 1) in
    let up := (half <? r)%Z || ((r =? half)%Z && Z.odd q) in
    Z.shiftl (if up then q + 1 else q)%Z sh.

(** Number::toString picks the fewest digits [s] and the exponent [e]
    with [s * 10^e] read back as the same number; of two such numerals the
    one closer to the number, then the even one.  [k] counts the digits
    tried, [d] is the number of digits of [x]. *)
Fixpoint shortest_from (fuel : nat) (k d x : Z) : Z * Z :=
  match fuel with
  | O => (x, 0%Z)
  | S fuel' =>
      if (d <=? k)%Z then (x, 0%Z)
      else
        let e := (d - k)%Z in
        let lo := (x / 10 ^ e)%Z in
        let hi := (lo + 1)%Z in
        let ok_lo := (nearest_double (lo * 10 ^ e) =? x)%Z in
        let ok_hi := (nearest_double (hi * 10 ^ e) =? x)%Z in
        let below := (x - lo * 10 ^ e)%Z in
        let above := (hi * 10 ^ e - x)%Z in
        if ok_lo && ok_hi then
          if (below <? above)%Z then (lo, e)
          else if (above <? below)%Z then (hi, e)
          else if Z.even lo then (lo, e) else (hi, e)
        else if ok_lo then (lo, e)
        else if ok_hi then (hi, e)
        else shortest_from fuel' (k + 1)%Z d x
  end.

Fixpoint strip_zeros (fuel : nat) (s e : Z) : Z * Z :=
  match fuel with
  | O => (s, e)
  | S fuel' =>
      if (0 <? s)%Z && (s mod 10 =? 0)%Z
      then strip_zeros fuel' (s / 10)%Z (e + 1)%Z
      else (s, e)
  end.

Definition shortest (x : Z) : Z * Z :=
  let d := Z.of_nat (String.length (decimal x)) in
  let '(s, e) := shortest_from (Z.to_nat d) 1%Z d x in
  strip_zeros (Z.to_nat d) s e.

(** Number::toString of a positive integer: plain digits below [10^21],
    exponent notation from there on. *)
Definition positive_toString (x : Z) : string :=
  let '(s, e) := shortest x in
  let ds := decimal s in
  let k := Z.of_nat (String.length ds) in
  let n := (e + k)%Z in
  if (n <=? 21)%Z then ds +:+ Str.str (repeat "0"%char (Z.to_nat e))
  else
    match ds with
    | String c EmptyString => String c ("e+" +:+ decimal (n - 1)%Z)
    | String c r => String c ("." +:+ r +:+ "e+" +:+ decimal (n - 1)%Z)
    | EmptyString => EmptyString
    end.

Definition number_toString (z : Z) : string :=
  if (z =? 0)%Z then "0"
  else if (z <? 0)%Z then "-" +:+ positive_toString (- z)
  else positive_toString z.

(** A property key that is an array index: the canonical numeral of an
    integer below [2^32 - 1].  Such keys come first among the own keys of
    an object, in ascending order. *)
Definition is_digit (c : ascii) : bool :=
  Nat.leb 48 (nat_of_ascii c) && Nat.leb (nat_of_ascii c) 57.

Definition array_index (k : string) : option Z :=
  match Str.chars k with
  | [] => None
  | c :: r =>
      if forallb is_digit (c :: r)
         && (negb (Ascii.eqb c "0"%char) || Nat.eqb (length r) 0)
      then
        let n := fold_left
                   (fun a d => (10 * a + Z.of_nat (nat_of_ascii d - 48))%Z)
                   (c :: r) 0%Z in
        if (n <? 2 ^ 32 - 1)%Z then Some n else None
      else None
  end.

Fixpoint insert_by_index (x : Z * string) (l : list (Z * string))
  : list (Z * string) :=
  match l with
  | [] => [x]
  | y :: r => if (fst x <? fst y)%Z then x :: l else y :: insert_by_index x r
  end.

(** The members of an object in own-key order: array indices ascending,
    then the other keys as they were created. *)
Definition own_key_order (ms : list (string * string)) : list string :=
  let indexed :=
    fold_right insert_by_index []
      (omap (fun m => (fun i => (i, snd m)) <$> array_index (fst m)) ms) in
  let named := filter (fun m => array_index (fst m) = None) ms in
  map snd indexed ++ map snd named.

(** SerializeJSONProperty: a member whose value is [undefined] is left
    out of an object and written [null] in an array; NaN and the
    infinities are written [null]; the named properties of an array are
    not written. *)
Fixpoint JSON_stringify (v : value) : option string :=
  match v with
  | VUndefined => None
  | VNull => Some "null"
  | VBool b => Some (if b then "true" else "false")
  | VNumber (NFinite z) => Some (number_toString z)
  | VNumber _ => Some "null"
  | VString s => Some (quote s)
  | VArray es _ =>
      Some ("[" +:+
            Str.join "," (map (fun e => default "null" (JSON_stringify e)) es)
            +:+ "]")
  | VObject ps =>
      let members :=
        (fix members (seen : list string) (ps : list (string * value))
           : list (string * string) :=
           match ps with
           | [] => []
           | (k, v') :: r =>
               if bool_decide (k ∈ seen) then members seen r
               else
                 match JSON_stringify v' with
                 | Some s => (k, quote k +:+ ":" +:+ s) :: members (k :: seen) r
                 | None => members (k :: seen) r
                 end
           end) [] ps in
      Some ("{" +:+ Str.join "," (own_key_order members) +:+ "}")
  end.


End Js.

(** ** The schema library

    The part of zod that [pageRouteSchema] uses: strings, finite numbers,
    JSON values, optional members, arrays and objects, strict or not.
    [describe] only attaches documentation and is left out. *)

Inductive ZodType :=
| ZString
| ZNumber
| ZJson
| ZOptional (inner : ZodType)
| ZArray (element : ZodType)
| ZObject (shape : list (string * ZodType)) (strict : bool).

Inductive PathElem :=
| PKey (k : string)
| PIndex (i : nat).

Inductive ZodIssue :=
| invalid_type (expected : string) (path : list PathElem)
| unrecognized_keys (keys : list string) (path : list PathElem)
| invalid_union (path : list PathElem).

Record ZodError := { issues : list ZodIssue }.

(** The result of [safeParse]; the [data] of a success is not represented,
    [enrichRoute] never reads it. *)
Inductive SafeParseResult :=
| ParseSuccess
| ParseFailure (error : ZodError).

Module Zod.

(** [z.json()]: string, finite number, boolean, null, array of JSON or
    record of JSON. *)
Fixpoint is_json (v : value) : bool :=
  match v with
  | VString _ | VBool _ | VNull => true
  | VNumber (NFinite _) => true
  | VNumber _ => false
  | VUndefined => false
  | VArray es _ => forallb is_json es
  | VObject ps => forallb (fun kv => is_json (snd kv)) ps
  end.

Definition shape_has (shape : list (string * ZodType)) (k : string) : bool :=
  existsb (fun kt => String.eqb k (fst kt)) shape.

Fixpoint parse (t : ZodType) (path : list PathElem) (v : value) {struct t}
  : list ZodIssue :=
  match t with
  | ZString =>
      match v with VString _ => [] | _ => [invalid_type "string" path] end
  | ZNumber =>
      match v with
      | VNumber (NFinite _) => []
      | _ => [invalid_type "number" path]
      end
  | ZJson => if is_json v then [] else [invalid_union path]
  | ZOptional inner =>
      match v with VUndefined => [] | _ => parse inner path v end
  | ZArray element =>
      match v with
      | VArray es _ =>
          concat (imap (fun i e => parse element (path ++ [PIndex i]) e) es)
      | _ => [invalid_type "array" path]
      end
  | ZObject shape strict =>
      match v with
      | VObject ps =>
          (fix members (sh : list (string * ZodType)) : list ZodIssue :=
             match sh with
             | [] => []
             | (k, tk) :: r =>
                 parse tk (path ++ [PKey k])
                       (default VUndefined (Js.assoc_get k ps))
                 ++ members r
             end) shape
          ++ (if strict then
                match filter (fun k => shape_has shape k = false) (map fst ps) with
                | [] => []
                | unknown => [unrecognized_keys unknown path]
                end
              else [])
      | _ => [invalid_type "object" path]
      end
  end.

Definition safeParse (t : ZodType) (v : value) : SafeParseResult :=
  match parse t [] v with
  | [] => ParseSuccess
  | iss => ParseFailure {| issues := iss |}
  end.

Definition success (r : SafeParseResult) : bool :=
  match r with ParseSuccess => true | ParseFailure _ => false end.

End Zod.

(** ** [pageRouteSchema] *)

Definition pageRouteSchema : ZodType :=
  ZObject
    [ ("path", ZString);
      ("pathBasename", ZOptional ZString);
      ("pathBasenameNoExtn", ZOptional ZString);
      ("pathDirname", ZOptional ZString);
      ("pathExtnTerminal", ZOptional ZString);
      ("pathExtns", ZOptional (ZArray ZString));
      ("caption", ZString);
      ("siblingOrder", ZOptional ZNumber);
      ("url", ZOptional ZString);
      ("title", ZOptional ZString);
      ("abbreviatedCaption", ZOptional ZString);
      ("description", ZOptional ZString);
      ("elaboration", ZOptional ZJson);
      ("children", ZOptional (ZArray (ZObject [("path", ZString)] false))) ]
    true.

Record RouteChild := { child_path : string }.

(** [PageRoute = z.infer<typeof pageRouteSchema>] *)
Record PageRoute := {
  path : string;
  pathBasename : option string;
  pathBasenameNoExtn : option string;
  pathDirname : option string;
  pathExtnTerminal : option string;
  pathExtns : option (list string);
  caption : string;
  siblingOrder : option jsnum;
  url : option string;
  title : option string;
  abbreviatedCaption : option string;
  description : option string;
  elaboration : option value;
  children : option (list RouteChild)
}.

(** ** [isRouteSupplier] *)

Definition isRouteSupplier (o : value) : bool :=
  if Js.truthy o
     && String.eqb (Js.typeof o) "object"
     && Js.has_property "route" o
     && match Js.get o "route" with
        | Normal r => String.eqb (Js.typeof r) "object"
        | Throw _ => false
        end
  then true else false.

(** ** Cells, issues and the enrichment state *)

(** Modelled from the spec: the document cell, whose type is declared in
    the notebook module (not part of these sources).  The carrier may
    expose an attribute object, has a fallback identifier (the fence info
    string, absent or a string) and a line span; these are the members
    [enrichRoute] reads. *)
Record DocCodeCell := {
  attrs : value;
  info : option string;
  startLine : Z;
  endLine : Z
}.

(** Modelled from the spec: the document context handed to a mutator; its
    [notebook.provenance] is the provenance reference of an issue. *)
Record Notebook := { provenance : string }.
Record NotebookCtx := { notebook : Notebook }.

(** The object literal handed to [registerIssue]. *)
Record Issue := {
  kind : string;
  disposition : string;
  error : ZodError;
  message : string;
  issue_provenance : string;
  issue_startLine : Z;
  issue_endLine : Z
}.

(** What a call can change: the cell it was given (its [attrs.route] is
    assigned to in place) and the issues handed to [registerIssue] so far. *)
Record Store := {
  st_cell : DocCodeCell;
  st_issues : list Issue
}.

(** The cell [c] after its [attrs] object changed *)
Definition with_attrs (c : DocCodeCell) (a : value) : DocCodeCell :=
  {| attrs := a; info := info c; startLine := startLine c; endLine := endLine c |}.

Definition M (A : Type) : Type := Store -> completion A * Store.

Definition ret {A} (a : A) : M A := fun st => (Normal a, st).

Definition bind {A B} (m : M A) (f : A -> M B) : M B :=
  fun st =>
    match m st with
    | (Normal a, st') => f a st'
    | (Throw e, st') => (Throw e, st')
    end.

Declare Scope js_scope.
Delimit Scope js_scope with js.
Notation "x <- m ;; k" := (bind m (fun x => k))
  (at level 100, m at level 99, k at level 200, right associativity) : js_scope.
Notation "m ;;; k" := (bind m (fun _ => k))
  (at level 100, k at level 200, right associativity) : js_scope.
Local Open Scope js_scope.

Definition lift {A} (c : completion A) : M A := fun st => (c, st).

Definition the_cell : M DocCodeCell := fun st => (Normal (st_cell st), st).

(** [cell.attrs.route] *)
Definition read_route : M value :=
  fun st => (Js.get (attrs (st_cell st)) "route", st).

(** [route.k], where [route] is the object [cell.attrs.route] *)
Definition route_get (k : string) : M value :=
  route <- read_route ;; lift (Js.get route k).

(** [route.k = v]: the object reachable from the cell is updated. *)
Definition route_set (k : string) (v : value) : M unit :=
  route <- read_route ;;
  route' <- lift (Js.set route k v) ;;
  fun st =>
    match Js.set (attrs (st_cell st)) "route" route' with
    | Normal attrs' =>
        (Normal tt,
         {| st_cell := with_attrs (st_cell st) attrs';
            st_issues := st_issues st |})
    | Throw e => (Throw e, st)
    end.

Definition registerIssue (i : Issue) : M unit :=
  fun st => (Normal tt, {| st_cell := st_cell st; st_issues := st_issues st ++ [i] |}).

(** The path functions assert [typeof path === "string"]; the message of
    the TypeError quotes [JSON.stringify(path)], which the template
    literal renders as [undefined] when there is none. *)
Definition assertPath_message (v : value) : string :=
  "Path must be a string, received "
  +:+ String Js.dquote (default "undefined" (Js.JSON_stringify v))
  +:+ String Js.dquote EmptyString.

Definition assertPath (v : value) : completion string :=
  match v with
  | VString s => Normal s
  | _ => Throw (TypeError (assertPath_message v))
  end.

Definition truthy_info (i : option string) : bool :=
  match i with
  | Some s => negb (String.eqb s "")
  | None => false
  end.

(** ** [enrichRoute] *)

Section Enrich.

(** [z.prettifyError], the library's rendering of an error as text *)
Variable prettifyError : ZodError -> string.

Definition enrichRoute (nb : NotebookCtx) : M unit :=
  cell <- the_cell ;;
  if negb (isRouteSupplier (attrs cell)) then ret tt
  else
    p <- route_get "path" ;;
    (if negb (Js.truthy p) && truthy_info (info cell)
     then route_set "path" (VString (default "" (info cell)))
     else ret tt) ;;;
    p1 <- route_get "path" ;;
    path1 <- lift (assertPath p1) ;;
    let extensions := pathExtensions path1 in
    route_set "pathBasename" (VString (pe_basename extensions)) ;;;
    route_set "pathBasenameNoExtn"
      (VString (nth 0 (Str.split "." (pe_basename extensions)) "")) ;;;
    p2 <- route_get "path" ;;
    path2 <- lift (assertPath p2) ;;
    route_set "pathDirname" (VString (Path.dirname path2)) ;;;
    route_set "pathExtnTerminal" (VString (pe_terminal extensions)) ;;;
    route_set "pathExtns"
      (VArray (map VString (pe_extensions extensions)) []) ;;;
    route <- read_route ;;
    match Zod.safeParse pageRouteSchema route with
    | ParseSuccess => ret tt
    | ParseFailure err =>
        registerIssue
          {| kind := "fence-attrs-json5-parse";
             disposition := "error";
             error := err;
             message := "Zod error parsing route: " +:+ prettifyError err;
             issue_provenance := provenance (notebook nb);
             issue_startLine := startLine cell;
             issue_endLine := endLine cell |}
    end.

End Enrich.

(** ** Breadcrumbs: the loop of [Routes.populate] *)

(** Modelled from the spec: a node of the forest built by [pathTree]
    (module universal/path-tree is not part of these sources).  A node is
    keyed by its normalized path and holds zero or more payload records,
    or none at all. *)
Record TreeNode := {
  node_path : string;
  payloads : option (list PageRoute)
}.

(** Modelled from the spec: the forest, its root node sequence and its
    path-keyed node lookup ([treeByPath], a map iterated in insertion
    order). *)
Record Forest := {
  roots : list TreeNode;
  treeByPath : list (string * TreeNode)
}.

(** Modelled from the spec: the navigation primitive,
    [ancestors(payload) -> ordered-sequence<payload>]. *)
Record Navigation := {
  ancestors : PageRoute -> list PageRoute
}.

Section Populate.

(** The forest builder and the navigation built on a forest, both of the
    path-tree module. *)
Variable pathTree : list PageRoute -> Forest.
Variable pathTreeNavigation : Forest -> Navigation.

(** [for (const p of node.payloads) crumbs[p.path] = nav.ancestors(p)] *)
Definition add_payloads (nav : Navigation)
    (crumbs : gmap string (list PageRoute)) (ps : list PageRoute)
  : gmap string (list PageRoute) :=
  fold_left (fun c p => <[path p := ancestors nav p]> c) ps crumbs.

(** [for (const node of forest.treeByPath.values()) if (node.payloads) ...] *)
Definition add_nodes (nav : Navigation) (nodes : list TreeNode)
    (crumbs : gmap string (list PageRoute)) : gmap string (list PageRoute) :=
  fold_left
    (fun c node =>
       match payloads node with
       | Some ps => add_payloads nav c ps
       | None => c
       end)
    nodes crumbs.

Definition compose_crumbs (forest : Forest) (nav : Navigation)
  : gmap string (list PageRoute) :=
  add_nodes nav (map snd (treeByPath forest)) ∅.

Record Populated := {
  pop_forest : Forest;
  pop_tree : list TreeNode;
  pop_crumbs : gmap string (list PageRoute)
}.

(** [Routes.populate]; the edges and serializers are handed through
    untouched and are not represented. *)
Definition populate (routeAnns : list PageRoute) : Populated :=
  let forest := pathTree routeAnns in
  let tree := roots forest in
  let nav := pathTreeNavigation forest in
  {| pop_forest := forest;
     pop_tree := tree;
     pop_crumbs := compose_crumbs forest nav |}.

End Populate.

(** ** Notions used in the statements *)

(** The chain as the specification words it: the parts after the stem,
    each with a leading dot, except the last one, which stays bare. *)
Definition dotted_except_last (rest : list string) : list string :=
  match rest with
  | [] => []
  | _ => map (fun e => "." +:+ e) (removelast rest) ++ option_list (last rest)
  end.


(** The named properties of an object value replaced, the elements of an
    array kept. *)
Definition with_props (o : value) (ps : list (string * value)) : value :=
  match o with
  | VArray es _ => VArray es ps
  | _ => VObject ps
  end.

(** [o.k] for reading in statements: [undefined] when there is no such
    property. *)
Definition prop_of (o : value) (k : string) : value :=
  default VUndefined (Js.own_props o ≫= Js.assoc_get k).

Definition route_of (c : DocCodeCell) : value := prop_of (attrs c) "route".

Definition route_field (c : DocCodeCell) (k : string) : value :=
  prop_of (route_of c) k.

(** The cell carries a route object (not [null]) whose named properties
    are [rps]. *)
Definition has_route_props (c : DocCodeCell) (rps : list (string * value)) : Prop :=
  exists aps r,
    Js.own_props (attrs c) = Some aps
    /\ Js.assoc_get "route" aps = Some r
    /\ Js.own_props r = Some rps.

(** The store after the properties of the route object became [rps]. *)
Definition set_route_props (rps : list (string * value)) (st : Store) : Store :=
  {| st_cell :=
       with_attrs (st_cell st)
         (with_props (attrs (st_cell st))
            (Js.assoc_set "route" (with_props (route_of (st_cell st)) rps)
               (default [] (Js.own_props (attrs (st_cell st))))));
     st_issues := st_issues st |}.

(** Step 2 of the enrichment on the properties of the route: [path]
    defaults to the cell's [info]. *)
Definition default_path (i : option string) (rps : list (string * value))
  : list (string * value) :=
  if negb (Js.truthy (default VUndefined (Js.assoc_get "path" rps))) && truthy_info i
  then Js.assoc_set "path" (VString (default "" i)) rps
  else rps.

(** Step 3: the five derived members, assigned in the order of the code. *)
Definition derive_props (p : string) (rps : list (string * value))
  : list (string * value) :=
  Js.assoc_set "pathExtns"
    (VArray (map VString (pe_extensions (pathExtensions p))) [])
    (Js.assoc_set "pathExtnTerminal" (VString (pe_terminal (pathExtensions p)))
       (Js.assoc_set "pathDirname" (VString (Path.dirname p))
          (Js.assoc_set "pathBasenameNoExtn"
             (VString (nth 0 (Str.split "." (pe_basename (pathExtensions p))) ""))
             (Js.assoc_set "pathBasename" (VString (pe_basename (pathExtensions p)))
                rps)))).

(** The issue [enrichRoute] hands to the sink for a failed parse. *)
Definition route_issue (prettifyError : ZodError -> string) (nb : NotebookCtx)
    (cell : DocCodeCell) (err : ZodError) : Issue :=
  {| kind := "fence-attrs-json5-parse";
     disposition := "error";
     error := err;
     message := "Zod error parsing route: " +:+ prettifyError err;
     issue_provenance := provenance (notebook nb);
     issue_startLine := startLine cell;
     issue_endLine := endLine cell |}.

(** The issues registered for the route value [r]: none or one. *)
Definition issues_for (prettifyError : ZodError -> string) (nb : NotebookCtx)
    (cell : DocCodeCell) (r : value) : list Issue :=
  match Zod.safeParse pageRouteSchema r with
  | ParseSuccess => []
  | ParseFailure err => [route_issue prettifyError nb cell err]
  end.

(** The outcome of the enrichment of a cell that carries a route object
    with properties [rps]. *)
Definition enrich_outcome (prettifyError : ZodError -> string) (nb : NotebookCtx)
    (st : Store) (rps : list (string * value)) : completion unit * Store :=
  let rps1 := default_path (info (st_cell st)) rps in
  let p := default VUndefined (Js.assoc_get "path" rps1) in
  match p with
  | VString s =>
      let st' := set_route_props (derive_props s rps1) st in
      (Normal tt,
       {| st_cell := st_cell st';
          st_issues :=
            st_issues st
            ++ issues_for prettifyError nb (st_cell st) (route_of (st_cell st')) |})
  | _ => (Throw (TypeError (assertPath_message p)), st)
  end.

(** The values of the five derived members for the path [p], by name. *)
Definition derived_value (p : string) (k : string) : value :=
  if String.eqb k "pathBasename" then VString (Path.basename p)
  else if String.eqb k "pathBasenameNoExtn"
       then VString (nth 0 (Str.split "." (Path.basename p)) "")
  else if String.eqb k "pathDirname" then VString (Path.dirname p)
  else if String.eqb k "pathExtnTerminal"
       then VString (pe_terminal (pathExtensions p))
  else if String.eqb k "pathExtns"
       then VArray (map VString (pe_extensions (pathExtensions p))) []
  else VUndefined.

Definition derived_keys : list string :=
  ["pathBasename"; "pathBasenameNoExtn"; "pathDirname"; "pathExtnTerminal"; "pathExtns"].

(** A cell whose route record has the non-empty path [p] and whose derived
    members hold what an enrichment computes for [p]. *)
Definition enriched (c : DocCodeCell) (p : string) : Prop :=
  exists rps,
    has_route_props c rps
    /\ Js.assoc_get "path" rps = Some (VString p)
    /\ p <> ""
    /\ Forall (fun k => Js.assoc_get k rps = Some (derived_value p k)) derived_keys.

(** A rendering of errors for the examples: the number of issues is all it
    shows. *)
Definition countIssues (e : ZodError) : string :=
  match issues e with
  | [] => "no issues"
  | [_] => "1 issue"
  | _ => "several issues"
  end.

Definition nb_example : NotebookCtx := {| notebook := {| provenance := "notebook.md" |} |}.

Definition cell_example (a : value) (i : option string) : DocCodeCell :=
  {| attrs := a; info := i; startLine := 3; endLine := 9 |}.

Definition store_example (a : value) (i : option string) : Store :=
  {| st_cell := cell_example a i; st_issues := [] |}.

(** [{ route: { path: "", caption: "Home" } }] *)
Definition attrs_home : value :=
  VObject [("route", VObject [("path", VString ""); ("caption", VString "Home")])].

(** [{ route: { path: "a.sql", caption: "A", foo: 1 } }] *)
Definition attrs_foo : value :=
  VObject [("route", VObject [("path", VString "a.sql"); ("caption", VString "A");
                              ("foo", VNumber (NFinite 1))])].

(** [{ route: { path: "a.sql" } }], the required caption is missing *)
Definition attrs_no_caption : value :=
  VObject [("route", VObject [("path", VString "a.sql")])].

(** [{ route: null }] *)
Definition attrs_null_route : value := VObject [("route", VNull)].

(** [{ route: { caption: "Home", pathBasename: "stale" } }], no path *)
Definition attrs_stale : value :=
  VObject [("route", VObject [("caption", VString "Home");
                              ("pathBasename", VString "stale")])].

(** [{ language: "sql" }], no route at all *)
Definition attrs_plain : value := VObject [("language", VString "sql")].

(** [{ route: { path: "/docs/report.sql.ts", caption: "Report",
    pathBasename: "stale" } }] *)
Definition attrs_report : value :=
  VObject [("route", VObject [("path", VString "/docs/report.sql.ts");
                              ("caption", VString "Report");
                              ("pathBasename", VString "stale")])].

(** The payload records of a list of nodes, in iteration order. *)
Definition payloads_of (nodes : list TreeNode) : list PageRoute :=
  flat_map (fun n => default [] (payloads n)) nodes.

Definition forest_nodes (forest : Forest) : list TreeNode :=
  map snd (treeByPath forest).

(** Payloads with the same path have the same ancestor chain: [path] is
    the primary key of a route and the forest is keyed by it. *)
Definition ancestors_by_path (nav : Navigation) (ps : list PageRoute) : Prop :=
  forall p q, p ∈ ps -> q ∈ ps -> path p = path q -> ancestors nav p = ancestors nav q.

(** A payload held by a root node of the forest. *)
Definition root_level (forest : Forest) (p : PageRoute) : Prop :=
  exists n ps, n ∈ roots forest /\ payloads n = Some ps /\ p ∈ ps.

(** Modelled from the spec: what the forest builder and the navigation
    promise.  Root nodes are in the node table, the ancestor chain of a
    root-level payload is empty, and the chain is found by path. *)
Record forest_navigation (forest : Forest) (nav : Navigation) : Prop := {
  roots_in_table : forall n, n ∈ roots forest -> n ∈ forest_nodes forest;
  root_ancestors : forall p, root_level forest p -> ancestors nav p = [];
  chain_by_path : ancestors_by_path nav (payloads_of (forest_nodes forest))
}.

Definition route_example (p c : string) : PageRoute :=
  {| path := p; pathBasename := None; pathBasenameNoExtn := None;
     pathDirname := None; pathExtnTerminal := None; pathExtns := None;
     caption := c; siblingOrder := None; url := None; title := None;
     abbreviatedCaption := None; description := None; elaboration := None;
     children := None |}.

(** A forest with the root [docs], holding one record, a container
    [docs/guide] without payloads and the leaf [docs/guide/intro.sql]. *)
Definition node_docs : TreeNode :=
  {| node_path := "docs"; payloads := Some [route_example "docs/index.sql" "Docs"] |}.
Definition node_guide : TreeNode :=
  {| node_path := "docs/guide"; payloads := None |}.
Definition node_intro : TreeNode :=
  {| node_path := "docs/guide/intro.sql";
     payloads := Some [route_example "docs/guide/intro.sql" "Intro"] |}.

Definition forest_example : Forest :=
  {| roots := [node_docs];
     treeByPath := [("docs", node_docs); ("docs/guide", node_guide);
                    ("docs/guide/intro.sql", node_intro)] |}.

Definition nav_example : Navigation :=
  {| ancestors := fun p =>
       if String.eqb (path p) "docs/guide/intro.sql"
       then [route_example "docs/index.sql" "Docs"]
       else [] |}.

(** A path segment as [normalize] keeps it: not empty, no separator. *)
Definition good_seg (s : list ascii) : Prop := s <> [] /\ "/"%char ∉ s.

(** ** Notions used in further statements *)

(** The number of occurrences of a code unit in a string. *)
Definition count_char (c : ascii) (s : string) : nat :=
  length (filter (fun x => x = c) (Str.chars s)).

(** The strings of a list, one after the other. *)
Definition concat_strings (l : list string) : string :=
  foldr String.append "" l.

(** * The language registry (universal/code.ts) *)

Module Code.

(** ** Types *)

Record BlockComment := {
  open : string;
  close : string;
  nested : option bool
}.

Record CommentStyle := {
  line : list string;
  block : list BlockComment
}.

Record LanguageSpec := {
  id : string;
  aliases : option (list string);
  extensions : option (list string);
  shebangs : option (list string);
  mime : option string;
  comment : CommentStyle
}.

(** ** [Map<string, V>]

    A map keeps its keys in insertion order, which [values()] follows;
    [set] on a key that is present replaces the value where it stands. *)

Fixpoint map_get {V} (k : string) (m : list (string * V)) : option V :=
  match m with
  | [] => None
  | (k', v) :: r => if String.eqb k k' then Some v else map_get k r
  end.

Fixpoint map_set {V} (k : string) (v : V) (m : list (string * V))
  : list (string * V) :=
  match m with
  | [] => [(k, v)]
  | (k', v') :: r =>
      if String.eqb k k' then (k, v) :: r else (k', v') :: map_set k v r
  end.

Definition map_values {V} (m : list (string * V)) : list V := map snd m.

(** The two module-level maps. *)
Record Registries := {
  languageRegistry : list (string * LanguageSpec);
  languageExtnIndex : list (string * LanguageSpec)
}.

Definition empty_registries : Registries :=
  {| languageRegistry := []; languageExtnIndex := [] |}.

(** ** String methods *)

(** [s.startsWith(p)] *)
Definition startsWith (s p : string) : bool := String.prefix p s.

(** [s.slice(n)] for [n >= 0] *)
Fixpoint slice_from (n : nat) (s : string) : string :=
  match n, s with
  | O, _ => s
  | S n', String _ r => slice_from n' r
  | S _, EmptyString => EmptyString
  end.

(** [s.includes(t)] *)
Fixpoint includes (s t : string) : bool :=
  String.prefix t s
  || match s with
     | EmptyString => false
     | String _ r => includes r t
     end.

Section Registry.

(** [String.prototype.toLowerCase], [String.prototype.trim] and the
    [extname] of the path library *)
Variable toLowerCase : string -> string.
Variable trim : string -> string.
Variable extname : string -> string.

Definition registerLanguage (spec : LanguageSpec) (st : Registries) : Registries :=
  let reg1 := map_set (id spec) spec (languageRegistry st) in
  let idx :=
    fold_left (fun m ext => map_set (toLowerCase ext) spec m)
              (default [] (extensions spec)) (languageExtnIndex st) in
  let reg2 :=
    fold_left (fun m alias => map_set alias spec m)
              (default [] (aliases spec)) reg1 in
  {| languageRegistry := reg2; languageExtnIndex := idx |}.

Definition getLanguageByIdOrAlias (idOrAlias : string) (st : Registries)
  : option LanguageSpec :=
  map_get idOrAlias (languageRegistry st).

Definition detectLanguageByPath (path : string) (st : Registries)
  : option LanguageSpec :=
  let ext := toLowerCase (extname path) in
  if String.eqb ext "" then None
  else map_get ext (languageExtnIndex st).

Definition detectLanguageByShebang (firstLine : string) (st : Registries)
  : option LanguageSpec :=
  if negb (startsWith firstLine "#!") then None
  else
    let rest := trim (slice_from 2 firstLine) in
    List.find
      (fun spec => existsb (fun s => includes rest s) (default [] (shebangs spec)))
      (map_values (languageRegistry st)).

(** ** The preloaded languages *)

Definition slash_star : BlockComment :=
  {| open := "/*"; close := "*/"; nested := Some false |}.

Definition c_style : CommentStyle := {| line := ["//"]; block := [slash_star] |}.
Definition hash_style : CommentStyle := {| line := ["#"]; block := [] |}.
Definition markup_style : CommentStyle :=
  {| line := []; block := [{| open := "<!--"; close := "-->"; nested := Some false |}] |}.

Definition preloaded_specs : list LanguageSpec :=
  [ {| id := "typescript";
       aliases := Some ["ts"; "javascript"; "js"; "tsx"; "jsx"];
       extensions := Some [".ts"; ".tsx"; ".js"; ".jsx"; ".mjs"; ".cjs"; ".jsonc"; ".json5"];
       shebangs := Some ["node"; "deno"];
       mime := Some "text/typescript";
       comment := c_style |};
    {| id := "json"; aliases := None; extensions := Some [".json"];
       shebangs := None; mime := None; comment := c_style |};
    {| id := "python"; aliases := Some ["py"]; extensions := Some [".py"];
       shebangs := Some ["python"; "python3"; "python2"]; mime := None;
       comment := hash_style |};
    {| id := "shell"; aliases := Some ["bash"; "sh"; "zsh"];
       extensions := Some [".sh"; ".bash"; ".zsh"];
       shebangs := Some ["bash"; "sh"; "zsh"]; mime := None;
       comment := hash_style |};
    {| id := "go"; aliases := None; extensions := Some [".go"];
       shebangs := None; mime := None; comment := c_style |};
    {| id := "rust"; aliases := Some ["rs"]; extensions := Some [".rs"];
       shebangs := None; mime := None;
       comment := {| line := ["//"];
                     block := [{| open := "/*"; close := "*/"; nested := Some true |}] |} |};
    {| id := "java"; aliases := None; extensions := Some [".java"];
       shebangs := None; mime := None; comment := c_style |};
    {| id := "kotlin"; aliases := Some ["kt"]; extensions := Some [".kt"; ".kts"];
       shebangs := None; mime := None; comment := c_style |};
    {| id := "c"; aliases := None; extensions := Some [".c"; ".h"];
       shebangs := None; mime := None; comment := c_style |};
    {| id := "cpp"; aliases := Some ["c++"; "cc"; "hpp"];
       extensions := Some [".cpp"; ".cc"; ".cxx"; ".hpp"; ".hxx"];
       shebangs := None; mime := None; comment := c_style |};
    {| id := "html"; aliases := None; extensions := Some [".html"; ".htm"];
       shebangs := None; mime := None; comment := markup_style |};
    {| id := "xml"; aliases := None; extensions := Some [".xml"];
       shebangs := None; mime := None; comment := markup_style |};
    {| id := "css"; aliases := None; extensions := Some [".css"];
       shebangs := None; mime := None;
       comment := {| line := []; block := [slash_star] |} |};
    {| id := "scss"; aliases := None; extensions := Some [".scss"; ".sass"];
       shebangs := None; mime := None; comment := c_style |};
    {| id := "sql"; aliases := None; extensions := Some [".sql"];
       shebangs := None; mime := None;
       comment := {| line := ["--"]; block := [slash_star] |} |};
    {| id := "yaml"; aliases := None; extensions := Some [".yaml"; ".yml"];
       shebangs := None; mime := None; comment := hash_style |};
    {| id := "toml"; aliases := None; extensions := Some [".toml"];
       shebangs := None; mime := None; comment := hash_style |};
    {| id := "ini"; aliases := None; extensions := Some [".ini"; ".cfg"];
       shebangs := None; mime := None;
       comment := {| line := [";"; "#"]; block := [] |} |};
    {| id := "lua"; aliases := None; extensions := Some [".lua"];
       shebangs := None; mime := None;
       comment := {| line := ["--"];
                     block := [{| open := "--[["; close := "]]"; nested := Some true |}] |} |};
    {| id := "r"; aliases := None; extensions := Some [".r"; ".R"];
       shebangs := None; mime := None; comment := hash_style |} ].

(** [preloadLanguages], run once when the module is loaded *)
Definition preloadLanguages (st : Registries) : Registries :=
  fold_left (fun s spec => registerLanguage spec s) preloaded_specs st.

Definition preloaded : Registries := preloadLanguages empty_registries.

End Registry.

(** Every extension of the preloaded table. *)
Definition preloaded_extensions : list string :=
  flat_map (fun spec => default [] (extensions spec)) preloaded_specs.

End Code.

(** ** The string methods on ASCII text, to run the registry *)

(** [toLowerCase] on ASCII letters; other code units stay. *)
Definition ascii_lower (c : ascii) : ascii :=
  let n := nat_of_ascii c in
  if (65 <=? n)%nat && (n <=? 90)%nat then ascii_of_nat (n + 32) else c.

Fixpoint ascii_toLowerCase (s : string) : string :=
  match s with
  | EmptyString => EmptyString
  | String c r => String (ascii_lower c) (ascii_toLowerCase r)
  end.

(** [trim] for the ASCII white space: space, tab, line feed, vertical tab,
    form feed and carriage return. *)
Definition ascii_space (c : ascii) : bool :=
  let n := nat_of_ascii c in
  (n =? 32)%nat || ((9 <=? n)%nat && (n <=? 13)%nat).

Definition ascii_trim (s : string) : string :=
  Str.str (rev (Str.drop_while ascii_space
                  (rev (Str.drop_while ascii_space (Str.chars s))))).

(** The POSIX [extname] of the path library: one backwards scan that finds
    the last dot of the last path segment. *)
Record ExtnameState := {
  startDot : Z;
  startPart : Z;
  end_ : Z;
  matchedSlash : bool;
  preDotState : Z;
  stopped : bool
}.

Definition extname_step (st : ExtnameState) (ic : nat * ascii) : ExtnameState :=
  let i := Z.of_nat (fst ic) in
  let code := snd ic in
  if stopped st then st
  else if Path.isPosixPathSeparator code then
    if negb (matchedSlash st)
    then {| startDot := startDot st; startPart := i + 1; end_ := end_ st;
            matchedSlash := matchedSlash st; preDotState := preDotState st;
            stopped := true |}
    else st
  else
    let ms := if Z.eqb (end_ st) (-1) then false else matchedSlash st in
    let e := if Z.eqb (end_ st) (-1) then (i + 1)%Z else end_ st in
    if Ascii.eqb code "." then
      if Z.eqb (startDot st) (-1)
      then {| startDot := i; startPart := startPart st; end_ := e;
              matchedSlash := ms; preDotState := preDotState st; stopped := false |}
      else {| startDot := startDot st; startPart := startPart st; end_ := e;
              matchedSlash := ms; preDotState := 1; stopped := false |}
    else if negb (Z.eqb (startDot st) (-1))
    then {| startDot := startDot st; startPart := startPart st; end_ := e;
            matchedSlash := ms; preDotState := -1; stopped := false |}
    else {| startDot := startDot st; startPart := startPart st; end_ := e;
            matchedSlash := ms; preDotState := preDotState st; stopped := false |}.

Definition posix_extname (path : string) : string :=
  let cs := Str.chars path in
  let st :=
    fold_left extname_step (rev (imap (fun i c => (i, c)) cs))
      {| startDot := -1; startPart := 0; end_ := -1; matchedSlash := true;
         preDotState := 0; stopped := false |} in
  if Z.eqb (startDot st) (-1)
     || Z.eqb (end_ st) (-1)
     || Z.eqb (preDotState st) 0
     || (Z.eqb (preDotState st) 1
         && Z.eqb (startDot st) (end_ st - 1)
         && Z.eqb (startDot st) (startPart st + 1))
  then ""
  else Str.str (take (Z.to_nat (end_ st - startDot st))
                     (drop (Z.to_nat (startDot st)) cs)).


(** The members of a route record that are not derived members. *)
Definition without_derived (rps : list (string * value)) : list (string * value) :=
  filter (fun kv => fst kv ∉ derived_keys) rps.
(** * Properties *)

(** ** Lists and strings *)

Module StrFacts.
Import Str.

Lemma chars_str cs : chars (str cs) = cs.
Proof. apply list_ascii_of_string_of_list_ascii. Qed.

Lemma str_chars s : str (chars s) = s.
Proof. apply string_of_list_ascii_of_string. Qed.

Lemma chars_app s t : chars (s +:+ t) = chars s ++ chars t.
Proof. induction s as [|c s IH]; simpl; [done | by rewrite IH]. Qed.

Lemma split_on_nonempty sep cs : split_on sep cs <> [].
Proof.
  destruct cs as [|c r]; simpl; [done |].
  destruct (Ascii.eqb c sep); [done |].
  by destruct (split_on sep r).
Qed.

(** No piece of a split contains the separator. *)
Lemma split_on_no_sep sep cs :
  Forall (fun seg => sep ∉ seg) (split_on sep cs).
Proof.
  induction cs as [|c r IH]; simpl.
  - constructor; [apply not_elem_of_nil | constructor].
  - destruct (Ascii.eqb_spec c sep) as [->|Hne].
    + constructor; [apply not_elem_of_nil | done].
    + destruct (split_on sep r) as [|h t]; inversion IH; subst.
      * repeat constructor. rewrite list_elem_of_singleton. congruence.
      * constructor; [|done]. rewrite elem_of_cons. intros [?|?]; congruence.
Qed.

(** Every piece is made of code units of the split string. *)
Lemma split_on_incl sep cs :
  Forall (fun seg => forall c, c ∈ seg -> c ∈ cs) (split_on sep cs).
Proof.
  induction cs as [|c r IH]; simpl.
  - constructor; [|constructor]. intros c Hc. by apply not_elem_of_nil in Hc.
  - destruct (Ascii.eqb c sep).
    + constructor.
      * intros x Hx. by apply not_elem_of_nil in Hx.
      * eapply Forall_impl; [exact IH |]. intros seg H x Hx. right. by apply H.
    + destruct (split_on sep r) as [|h t].
      * constructor; [|constructor]. intros x Hx.
        apply list_elem_of_singleton in Hx as ->. left.
      * apply Forall_cons_1 in IH as [Hh Ht]. constructor.
        -- intros x [->|Hx]%elem_of_cons; [left | right; auto].
        -- eapply Forall_impl; [exact Ht |]. intros seg H x Hx. right. by apply H.
Qed.

(** A string without the separator splits into itself. *)
Lemma split_on_no_sep_id sep cs : sep ∉ cs -> split_on sep cs = [cs].
Proof.
  induction cs as [|c r IH]; simpl; [done |].
  intros Hn. apply not_elem_of_cons in Hn as [Hne Hr].
  destruct (Ascii.eqb_spec c sep) as [->|_]; [done |].
  by rewrite (IH Hr).
Qed.

(** Splitting [a ++ sep :: b] when [a] holds no separator. *)
Lemma split_on_app_sep sep a b :
  sep ∉ a -> split_on sep (a ++ sep :: b) = a :: split_on sep b.
Proof.
  induction a as [|c r IH]; simpl.
  - intros _. by rewrite Ascii.eqb_refl.
  - intros Hn. apply not_elem_of_cons in Hn as [Hne Hr].
    destruct (Ascii.eqb_spec c sep) as [->|_]; [done |].
    by rewrite (IH Hr).
Qed.

(** Splitting [a ++ sep :: b] when [b] holds no separator. *)
Lemma split_on_sep_app sep a b :
  sep ∉ b -> split_on sep (a ++ sep :: b) = split_on sep a ++ [b].
Proof.
  intros Hb. induction a as [|c r IH]; simpl.
  - rewrite Ascii.eqb_refl. by rewrite split_on_no_sep_id.
  - destruct (Ascii.eqb c sep); [by rewrite IH |].
    rewrite IH. pose proof (split_on_nonempty sep r).
    by destruct (split_on sep r).
Qed.

Lemma mapi_from_length {A B} (f : A -> nat -> B) i l :
  length (mapi_from f i l) = length l.
Proof. revert i. induction l; intros; simpl; [done | by rewrite IHl]. Qed.

(** Mapping "all but the last": the callback of [pathExtensions]. *)
Lemma mapi_all_but_last {A} (g : A -> A) (l : list A) i n :
  n = i + length l ->
  mapi_from (fun e j => if Nat.ltb j (n - 1) then g e else e) i l
  = match l with
    | [] => []
    | _ => map g (removelast l) ++ option_list (last l)
    end.
Proof.
  revert i. induction l as [|x r IH]; intros i Hn; [done |].
  cbn [mapi_from]. rewrite (IH (S i)) by (simpl in Hn; lia).
  destruct r as [|y r'].
  - simpl in Hn. replace (i <? n - 1)%nat with false; [done |].
    symmetry. apply Nat.ltb_ge. lia.
  - replace (i <? n - 1)%nat with true; [done |].
    symmetry. apply Nat.ltb_lt. simpl in Hn. lia.
Qed.

End StrFacts.

(** ** The extension chain *)

Lemma pathExtensions_extensions p :
  pe_extensions (pathExtensions p)
  = dotted_except_last (tl (Str.split "." (Path.basename p))).
Proof.
  unfold pathExtensions, pe_extensions, Str.map_eia, Str.slice_1.
  by rewrite (StrFacts.mapi_all_but_last (fun e => "." +:+ e) _ 0 _).
Qed.

Lemma last_dotted_except_last rest :
  last (dotted_except_last rest) = last rest.
Proof.
  destruct rest as [|x r]; [done |].
  unfold dotted_except_last.
  destruct (last (x :: r)) as [y|] eqn:E.
  - simpl option_list. by rewrite last_snoc.
  - by apply last_None in E.
Qed.

(** C3: for every path the extension chain is the list of dot-split parts
    of the basename after the stem, each with a leading dot except the
    last, which is bare; the terminal extension is that last element (the
    last raw part), or the empty string when there is none; and
    ["/docs/report.sql.ts"] has basename ["report.sql.ts"], chain
    [[".sql"; "ts"]] and terminal ["ts"]. *)
Theorem pathExtensions_chain :
  (forall p : string,
     let parts := Str.split "." (Path.basename p) in
     let x := pathExtensions p in
     pe_basename x = Path.basename p
     /\ pe_extensions x = dotted_except_last (tl parts)
     /\ last (pe_extensions x) = last (tl parts)
     /\ pe_terminal x = default "" (last (pe_extensions x)))
  /\ pe_basename (pathExtensions "/docs/report.sql.ts") = "report.sql.ts"
  /\ pe_extensions (pathExtensions "/docs/report.sql.ts") = [".sql"; "ts"]
  /\ pe_terminal (pathExtensions "/docs/report.sql.ts") = "ts".
Proof.
  split; [| by vm_compute].
  intros p parts x. subst x parts.
  repeat split.
  - apply pathExtensions_extensions.
  - rewrite pathExtensions_extensions. apply last_dotted_except_last.
Qed.

(** ** Objects *)

Module JsFacts.
Import Js.

Lemma assoc_get_set_eq k v ps : assoc_get k (assoc_set k v ps) = Some v.
Proof.
  induction ps as [|[k' v'] r IH]; simpl.
  - by rewrite String.eqb_refl.
  - destruct (String.eqb k k') eqn:E; simpl; rewrite ?String.eqb_refl, ?E; done.
Qed.

Lemma assoc_get_set_ne k k' v ps :
  k <> k' -> assoc_get k (assoc_set k' v ps) = assoc_get k ps.
Proof.
  intros Hne. induction ps as [|[k2 v2] r IH]; simpl.
  - by apply String.eqb_neq in Hne as ->.
  - destruct (String.eqb_spec k' k2) as [->|Hk]; simpl.
    + by apply String.eqb_neq in Hne as ->.
    + by rewrite IH.
Qed.

Lemma assoc_set_id k v ps : assoc_get k ps = Some v -> assoc_set k v ps = ps.
Proof.
  induction ps as [|[k' v'] r IH]; simpl; [done |].
  destruct (String.eqb_spec k k') as [->|Hk].
  - by intros [= ->].
  - intros H. by rewrite IH.
Qed.

Lemma assoc_set_set k v v' ps :
  assoc_set k v (assoc_set k v' ps) = assoc_set k v ps.
Proof.
  induction ps as [|[k' w] r IH]; simpl.
  - by rewrite String.eqb_refl.
  - destruct (String.eqb k k') eqn:E; simpl; rewrite ?String.eqb_refl, ?E, ?IH; done.
Qed.

Lemma own_props_with_props o ps :
  is_Some (own_props o) -> own_props (with_props o ps) = Some ps.
Proof. destruct o; simpl; intros [? [=]]; done. Qed.

Lemma with_props_with_props o ps ps' :
  with_props (with_props o ps) ps' = with_props o ps'.
Proof. by destruct o. Qed.

Lemma with_props_id o ps : own_props o = Some ps -> with_props o ps = o.
Proof. destruct o; simpl; intros [= ->]; done. Qed.

Lemma get_object o ps k :
  own_props o = Some ps -> get o k = Normal (default VUndefined (assoc_get k ps)).
Proof. destruct o; simpl; intros [= ->]; done. Qed.

Lemma set_object o ps k v :
  own_props o = Some ps -> set o k v = Normal (with_props o (assoc_set k v ps)).
Proof. destruct o; simpl; intros [= ->]; done. Qed.

End JsFacts.

(** ** Running the enrichment *)

Section EnrichFacts.
Import Js JsFacts.

Variable prettifyError : ZodError -> string.
Variable nb : NotebookCtx.

Lemma route_of_has_route_props c rps :
  has_route_props c rps -> own_props (route_of c) = Some rps.
Proof.
  intros (aps & r & Ha & Hr & Hp). unfold route_of, prop_of.
  rewrite Ha. simpl. by rewrite Hr.
Qed.

Lemma route_field_has_route_props c rps k :
  has_route_props c rps ->
  route_field c k = default VUndefined (assoc_get k rps).
Proof.
  intros H. unfold route_field, prop_of.
  by rewrite (route_of_has_route_props _ _ H).
Qed.

Lemma has_route_props_set st rps rps' :
  has_route_props (st_cell st) rps ->
  has_route_props (st_cell (set_route_props rps' st)) rps'.
Proof.
  intros H. pose proof (route_of_has_route_props _ _ H) as Hro.
  destruct H as (aps & r & Ha & Hr & Hp).
  exists (assoc_set "route" (with_props (route_of (st_cell st)) rps') aps),
         (with_props (route_of (st_cell st)) rps').
  simpl. rewrite Ha. simpl. split; [| split].
  - apply own_props_with_props. by rewrite Ha.
  - apply assoc_get_set_eq.
  - apply own_props_with_props. by rewrite Hro.
Qed.

Lemma set_route_props_twice a b st :
  is_Some (own_props (attrs (st_cell st))) ->
  set_route_props a (set_route_props b st) = set_route_props a st.
Proof.
  intros [aps Ha]. unfold set_route_props. simpl. f_equal. unfold with_attrs. simpl.
  f_equal. rewrite with_props_with_props. f_equal.
  rewrite own_props_with_props by (by rewrite Ha). rewrite Ha. simpl.
  unfold route_of at 1, prop_of. simpl.
  rewrite own_props_with_props by (by rewrite Ha). simpl.
  rewrite assoc_get_set_eq. simpl.
  by rewrite with_props_with_props, assoc_set_set.
Qed.

Lemma set_route_props_id st rps :
  has_route_props (st_cell st) rps -> set_route_props rps st = st.
Proof.
  intros H. pose proof (route_of_has_route_props _ _ H) as Hro.
  destruct H as (aps & r & Ha & Hr & Hp).
  destruct st as [[a i s e] iss]. simpl in *.
  unfold set_route_props, with_attrs. simpl. f_equal. f_equal.
  rewrite Ha. simpl. rewrite (with_props_id _ _ Hro).
  assert (route_of {| attrs := a; info := i; startLine := s; endLine := e |} = r) as ->.
  { unfold route_of, prop_of. simpl. rewrite Ha. simpl. by rewrite Hr. }
  rewrite (assoc_set_id _ _ _ Hr). by apply with_props_id.
Qed.

Lemma run_read_route st rps :
  has_route_props (st_cell st) rps ->
  read_route st = (Normal (route_of (st_cell st)), st).
Proof.
  intros (aps & r & Ha & Hr & Hp). unfold read_route, route_of, prop_of.
  rewrite (get_object _ _ _ Ha), Ha. done.
Qed.

Lemma run_route_get st rps k :
  has_route_props (st_cell st) rps ->
  route_get k st = (Normal (default VUndefined (assoc_get k rps)), st).
Proof.
  intros H. unfold route_get, bind. rewrite (run_read_route _ _ H).
  unfold lift. by rewrite (get_object _ _ _ (route_of_has_route_props _ _ H)).
Qed.

Lemma run_route_set st rps k v :
  has_route_props (st_cell st) rps ->
  route_set k v st = (Normal tt, set_route_props (assoc_set k v rps) st).
Proof.
  intros H. unfold route_set, bind. rewrite (run_read_route _ _ H).
  unfold lift. rewrite (set_object _ _ _ _ (route_of_has_route_props _ _ H)).
  destruct H as (aps & r & Ha & Hr & Hp).
  rewrite (set_object _ _ _ _ Ha). unfold set_route_props.
  by rewrite Ha.
Qed.

Lemma bind_normal {A B} (m : M A) (f : A -> M B) st a st' :
  m st = (Normal a, st') -> bind m f st = f a st'.
Proof. unfold bind. by intros ->. Qed.

Lemma bind_throw {A B} (m : M A) (f : A -> M B) st e st' :
  m st = (Throw e, st') -> bind m f st = (Throw e, st').
Proof. unfold bind. by intros ->. Qed.

(** What the capability check accepts: an object or array whose [route]
    member is an object, an array, or [null]. *)
Lemma isRouteSupplier_true a :
  isRouteSupplier a = true <->
  exists aps r,
    own_props a = Some aps /\ assoc_get "route" aps = Some r
    /\ (r = VNull \/ is_Some (own_props r)).
Proof.
  unfold isRouteSupplier. split.
  - destruct a as [| |b|n|s|es ps|ps]; simpl; try done;
      try (by destruct b); try (by destruct n as [z| |]; [destruct (Z.eqb z 0)|..]);
      try (by destruct (negb (String.eqb s ""))).
    all: unfold has_property; simpl; destruct (assoc_get "route" ps) as [r|] eqn:E.
    all: try (rewrite bool_decide_eq_false_2 by (by intros [? [=]]); done).
    all: intros H; exists ps, r; split; [done | split; [done |]].
    all: destruct r; simpl in *; eauto.
    all: first [done | by destruct (bool_decide _) in H].
  - intros (aps & r & Ha & Hr & Hobj).
    destruct a; simpl in Ha; try done; injection Ha as ->; simpl.
    all: unfold has_property; simpl; rewrite Hr; simpl.
    all: destruct Hobj as [-> | [rps Hrps]]; [done |].
    all: by destruct r.
Qed.

Lemma run_read_route_rel st0 rps0 rps :
  has_route_props (st_cell st0) rps0 ->
  read_route (set_route_props rps st0)
  = (Normal (with_props (route_of (st_cell st0)) rps), set_route_props rps st0).
Proof.
  intros H. rewrite (run_read_route _ rps) by by eapply has_route_props_set.
  do 2 f_equal. destruct H as (aps & r & Ha & Hr & Hp).
  unfold route_of at 1, prop_of. simpl. rewrite Ha. simpl.
  rewrite own_props_with_props by (by rewrite Ha). simpl.
  by rewrite assoc_get_set_eq.
Qed.

Lemma run_route_get_rel st0 rps0 rps k :
  has_route_props (st_cell st0) rps0 ->
  route_get k (set_route_props rps st0)
  = (Normal (default VUndefined (assoc_get k rps)), set_route_props rps st0).
Proof. intros H. apply run_route_get. by eapply has_route_props_set. Qed.

Lemma run_route_set_rel st0 rps0 rps k v :
  has_route_props (st_cell st0) rps0 ->
  route_set k v (set_route_props rps st0)
  = (Normal tt, set_route_props (assoc_set k v rps) st0).
Proof.
  intros H. rewrite (run_route_set _ rps) by by eapply has_route_props_set.
  f_equal. apply set_route_props_twice.
  destruct H as (aps & r & Ha & _). by rewrite Ha.
Qed.

Lemma has_route_props_supplier c rps :
  has_route_props c rps -> isRouteSupplier (attrs c) = true.
Proof.
  intros (aps & r & Ha & Hr & Hp). apply isRouteSupplier_true.
  exists aps, r. by eauto 6.
Qed.

(** One statement of the enrichment at a time. *)
Ltac run_get := erewrite bind_normal by (by eapply run_route_get_rel).
Ltac run_set := erewrite bind_normal by (by eapply run_route_set_rel).
Ltac run_pure := erewrite bind_normal by reflexivity.

Lemma enrichRoute_rel st rps :
  has_route_props (st_cell st) rps ->
  enrichRoute prettifyError nb (set_route_props rps st)
  = enrich_outcome prettifyError nb st rps.
Proof.
  intros H. unfold enrichRoute.
  run_pure.
  rewrite (has_route_props_supplier _ rps) by by eapply has_route_props_set.
  cbn [negb].
  run_get.
  change (info (st_cell (set_route_props rps st))) with (info (st_cell st)).
  change (startLine (st_cell (set_route_props rps st))) with (startLine (st_cell st)).
  change (endLine (st_cell (set_route_props rps st))) with (endLine (st_cell st)).
  erewrite (bind_normal _ _ _ tt (set_route_props (default_path (info (st_cell st)) rps) st)).
  2:{ unfold default_path.
      destruct (negb (truthy (default VUndefined (assoc_get "path" rps)))
                && truthy_info (info (st_cell st)));
        [by eapply run_route_set_rel | done]. }
  unfold enrich_outcome.
  assert (forall v, default VUndefined
                      (assoc_get "path" (default_path (info (st_cell st)) rps)) = v ->
                    (forall s, v <> VString s) ->
                    default_path (info (st_cell st)) rps = rps) as Hkeep.
  { intros v Hv Hns. unfold default_path in *.
    destruct (negb (truthy (default VUndefined (assoc_get "path" rps)))
              && truthy_info (info (st_cell st))); [| done].
    rewrite assoc_get_set_eq in Hv. simpl in Hv. by destruct (Hns _ (eq_sym Hv)). }
  set (rps1 := default_path (info (st_cell st)) rps) in *.
  run_get.
  destruct (default VUndefined (assoc_get "path" rps1)) as [| |b|n|s|es ps|ps] eqn:Ep.
  5:{ run_pure. run_set. run_set. run_get.
      rewrite !assoc_get_set_ne by done. rewrite Ep.
      run_pure. run_set. run_set. run_set.
      erewrite bind_normal by (by eapply run_read_route_rel).
      fold (derive_props s rps1).
      assert (route_of (st_cell (set_route_props (derive_props s rps1) st))
              = with_props (route_of (st_cell st)) (derive_props s rps1)) as ->.
      { pose proof (run_read_route_rel st rps (derive_props s rps1) H) as E1.
        rewrite (run_read_route _ (derive_props s rps1)) in E1
          by by eapply has_route_props_set.
        by injection E1. }
      unfold issues_for.
      destruct (Zod.safeParse pageRouteSchema _); [| done].
      unfold ret. f_equal. rewrite app_nil_r. by destruct st. }
  all: erewrite bind_throw by reflexivity.
  all: rewrite (Hkeep _ eq_refl) by done.
  all: by rewrite set_route_props_id.
Qed.

Lemma enrichRoute_object st rps :
  has_route_props (st_cell st) rps ->
  enrichRoute prettifyError nb st = enrich_outcome prettifyError nb st rps.
Proof.
  intros H. rewrite <- (enrichRoute_rel st rps H).
  by rewrite set_route_props_id.
Qed.

Lemma enrichRoute_skip st :
  isRouteSupplier (attrs (st_cell st)) = false ->
  enrichRoute prettifyError nb st = (Normal tt, st).
Proof.
  intros H. unfold enrichRoute.
  erewrite bind_normal by reflexivity. by rewrite H.
Qed.

Lemma enrichRoute_null st aps :
  own_props (attrs (st_cell st)) = Some aps ->
  assoc_get "route" aps = Some VNull ->
  enrichRoute prettifyError nb st
  = (Throw (TypeError "Cannot read properties of null (reading 'path')"), st).
Proof.
  intros Ha Hr. unfold enrichRoute.
  erewrite bind_normal by reflexivity.
  assert (isRouteSupplier (attrs (st_cell st)) = true) as ->.
  { apply isRouteSupplier_true. exists aps, VNull. eauto. }
  cbn [negb]. erewrite bind_throw; [done |].
  unfold route_get. erewrite bind_normal.
  2:{ unfold read_route. by rewrite (get_object _ _ _ Ha), Hr. }
  done.
Qed.

(** A cell accepted by the capability check carries [null] or a route
    object. *)
Lemma supplier_cases c :
  isRouteSupplier (attrs c) = true ->
  (exists aps, own_props (attrs c) = Some aps /\ assoc_get "route" aps = Some VNull)
  \/ exists rps, has_route_props c rps.
Proof.
  intros (aps & r & Ha & Hr & [-> | [rps Hp]])%isRouteSupplier_true.
  - left. eauto.
  - right. exists rps, aps, r. eauto.
Qed.

End EnrichFacts.

Section EnrichResults.
Import Js JsFacts.

Variable prettifyError : ZodError -> string.
Variable nb : NotebookCtx.

Lemma derive_props_path p rps :
  assoc_get "path" (derive_props p rps) = assoc_get "path" rps.
Proof. unfold derive_props. by rewrite !assoc_get_set_ne by done. Qed.

Lemma derive_props_derived p rps :
  Forall (fun k => assoc_get k (derive_props p rps) = Some (derived_value p k))
         derived_keys.
Proof.
  unfold derive_props, derived_keys.
  repeat apply Forall_cons_2; try apply Forall_nil_2;
    repeat first [ rewrite assoc_get_set_eq; reflexivity
                 | rewrite assoc_get_set_ne by done ].
Qed.

(** Assigning the derived members a second time changes nothing. *)
Lemma derive_props_fixed p rps :
  Forall (fun k => assoc_get k rps = Some (derived_value p k)) derived_keys ->
  derive_props p rps = rps.
Proof.
  unfold derived_keys. intros H.
  repeat (apply Forall_cons_1 in H as [? H]).
  unfold derive_props.
  rewrite (assoc_set_id "pathBasename") by done.
  rewrite (assoc_set_id "pathBasenameNoExtn") by done.
  rewrite (assoc_set_id "pathDirname") by done.
  rewrite (assoc_set_id "pathExtnTerminal") by done.
  by rewrite (assoc_set_id "pathExtns").
Qed.

(** A normal return from a cell that passes the capability check. *)
Lemma enrichRoute_normal_inv st st' :
  enrichRoute prettifyError nb st = (Normal tt, st') ->
  isRouteSupplier (attrs (st_cell st)) = true ->
  exists rps p,
    has_route_props (st_cell st) rps
    /\ default VUndefined (assoc_get "path" (default_path (info (st_cell st)) rps))
       = VString p
    /\ has_route_props (st_cell st')
         (derive_props p (default_path (info (st_cell st)) rps))
    /\ st_issues st'
       = st_issues st
         ++ issues_for prettifyError nb (st_cell st) (route_of (st_cell st')).
Proof.
  intros Hrun [(aps & Ha & Hr) | [rps H]]%supplier_cases.
  - by rewrite (enrichRoute_null _ _ _ aps) in Hrun.
  - rewrite (enrichRoute_object _ _ _ rps H) in Hrun. unfold enrich_outcome in Hrun.
    destruct (default VUndefined _) as [| | | |p| |] eqn:Ep; try done.
    injection Hrun as <-. exists rps, p. simpl.
    split; [done | split; [done | split; [| done]]].
    by eapply has_route_props_set.
Qed.

End EnrichResults.

(** ** The capability guard *)

(** C7: a carrier whose attrs fail the capability check is left as it is
    by the enrichment: the call returns normally, the cell is the same and
    no issue is registered. *)
Theorem enrichRoute_noop_without_route :
  forall (prettifyError : ZodError -> string) (nb : NotebookCtx) (st : Store),
    isRouteSupplier (attrs (st_cell st)) = false ->
    enrichRoute prettifyError nb st = (Normal tt, st).
Proof. intros pe nb st H. by apply enrichRoute_skip. Qed.

Lemma enrichRoute_noop_without_route_witness :
  isRouteSupplier attrs_plain = false
  /\ enrichRoute countIssues nb_example (store_example attrs_plain (Some "index.sql"))
     = (Normal tt, store_example attrs_plain (Some "index.sql")).
Proof.
  split; [reflexivity |].
  apply (enrichRoute_noop_without_route countIssues nb_example
           (store_example attrs_plain (Some "index.sql"))).
  reflexivity.
Defined.

(** C10: when attrs is an object whose [route] member is [null], the
    capability check answers [true], as it does for a genuine route
    object, because [typeof null] is ["object"]; the enrichment then reads
    [path] from [null] and throws a TypeError, leaving cell and issues as
    they were. *)
Theorem null_route_passes_capability_check :
  forall (prettifyError : ZodError -> string) (nb : NotebookCtx) (st : Store)
         (aps : list (string * value)),
    Js.own_props (attrs (st_cell st)) = Some aps ->
    Js.assoc_get "route" aps = Some VNull ->
    Js.typeof VNull = "object"
    /\ isRouteSupplier (attrs (st_cell st)) = true
    /\ (forall rps, isRouteSupplier
                      (with_props (attrs (st_cell st))
                         (Js.assoc_set "route" (VObject rps) aps)) = true)
    /\ enrichRoute prettifyError nb st
       = (Throw (TypeError "Cannot read properties of null (reading 'path')"), st).
Proof.
  intros pe nb st aps Ha Hr. split; [done |]. split; [| split].
  - apply isRouteSupplier_true. exists aps, VNull. eauto.
  - intros rps. apply isRouteSupplier_true.
    exists (Js.assoc_set "route" (VObject rps) aps), (VObject rps).
    split; [| split].
    + apply JsFacts.own_props_with_props. by rewrite Ha.
    + apply JsFacts.assoc_get_set_eq.
    + right. by eexists.
  - by apply (enrichRoute_null pe nb st aps).
Qed.

Lemma null_route_passes_capability_check_witness :
  isRouteSupplier attrs_null_route = true
  /\ enrichRoute countIssues nb_example (store_example attrs_null_route None)
     = (Throw (TypeError "Cannot read properties of null (reading 'path')"),
        store_example attrs_null_route None).
Proof.
  pose proof (null_route_passes_capability_check countIssues nb_example
                (store_example attrs_null_route None) [("route", VNull)]
                eq_refl eq_refl) as (_ & H1 & _ & H2).
  exact (conj H1 H2).
Defined.

(** C4: the enrichment call does raise.  For the attrs [{ route: null }]
    the capability check passes, the read of [route.path] throws a
    TypeError and nothing is reported to the issue sink; a route without a
    path on a cell without an info string throws from the path library in
    the same way. *)
Theorem enrichRoute_raises_on_null_route :
  isRouteSupplier attrs_null_route = true
  /\ enrichRoute countIssues nb_example (store_example attrs_null_route (Some "index.sql"))
     = (Throw (TypeError "Cannot read properties of null (reading 'path')"),
        store_example attrs_null_route (Some "index.sql"))
  /\ enrichRoute countIssues nb_example (store_example attrs_stale None)
     = (Throw (TypeError
                 ("Path must be a string, received "
                  +:+ String Js.dquote ("undefined" +:+ String Js.dquote EmptyString))),
        store_example attrs_stale None).
Proof. by vm_compute. Qed.

(** The message of the path library names what it received: nothing, a
    number, an array. *)
Example assertPath_messages :
  assertPath VUndefined
  = Throw (TypeError
             ("Path must be a string, received "
              +:+ String Js.dquote ("undefined" +:+ String Js.dquote EmptyString)))
  /\ assertPath (VNumber (NFinite 5))
     = Throw (TypeError
                ("Path must be a string, received "
                 +:+ String Js.dquote ("5" +:+ String Js.dquote EmptyString)))
  /\ assertPath (VArray [VUndefined; VNumber (NFinite (2 ^ 64)); VBool true] [])
     = Throw (TypeError
                ("Path must be a string, received "
                 +:+ String Js.dquote
                       ("[null,18446744073709552000,true]"
                        +:+ String Js.dquote EmptyString))).
Proof. by vm_compute. Qed.

(** ** Validation issues *)

(** C1, as the code has it: when the route record of an enrichment that
    returns fails the schema, exactly one issue is added to the sink; its
    kind is ["fence-attrs-json5-parse"] and its disposition is ["error"]. *)
Theorem schema_failure_registers_one_issue :
  forall (prettifyError : ZodError -> string) (nb : NotebookCtx) (st st' : Store),
    isRouteSupplier (attrs (st_cell st)) = true ->
    enrichRoute prettifyError nb st = (Normal tt, st') ->
    Zod.success (Zod.safeParse pageRouteSchema (route_of (st_cell st'))) = false ->
    exists i : Issue,
      st_issues st' = st_issues st ++ [i]
      /\ kind i = "fence-attrs-json5-parse"
      /\ disposition i = "error".
Proof.
  intros pe nb st st' Hsup Hrun Hfail.
  destruct (enrichRoute_normal_inv pe nb st st' Hrun Hsup) as (rps & p & _ & _ & _ & Hiss).
  unfold issues_for in Hiss.
  destruct (Zod.safeParse pageRouteSchema (route_of (st_cell st'))) as [|err]; [done |].
  exists (route_issue pe nb (st_cell st) err). by rewrite Hiss.
Qed.

Lemma schema_failure_registers_one_issue_witness :
  let st := store_example attrs_foo None in
  let st' := snd (enrichRoute countIssues nb_example st) in
  exists i : Issue,
    st_issues st' = st_issues st ++ [i]
    /\ kind i = "fence-attrs-json5-parse"
    /\ disposition i = "error".
Proof.
  intros st st'.
  apply (schema_failure_registers_one_issue countIssues nb_example st st');
    vm_compute; reflexivity.
Defined.

(** The record with the unrecognized member [foo: 1] fails the schema and
    gets exactly one issue, but the kind of that issue is not
    ["route-schema-parse"]. *)
Lemma unrecognized_member_issue_kind :
  exists (st' : Store) (i : Issue),
    enrichRoute countIssues nb_example (store_example attrs_foo None) = (Normal tt, st')
    /\ Zod.success (Zod.safeParse pageRouteSchema (route_of (st_cell st'))) = false
    /\ st_issues st' = [i]
    /\ kind i <> "route-schema-parse".
Proof. do 2 eexists. vm_compute. repeat split. discriminate. Qed.

(** The record without its required caption: one issue, disposition
    ["error"], and the call returns. *)
Lemma missing_caption_one_issue :
  exists (st' : Store) (i : Issue),
    enrichRoute countIssues nb_example (store_example attrs_no_caption None)
    = (Normal tt, st')
    /\ st_issues st' = [i]
    /\ disposition i = "error"
    /\ issues (error i) = [invalid_type "string" [PKey "caption"]].
Proof. do 2 eexists. vm_compute. repeat split. Qed.

(** The call returns whenever the route is an object whose path, after
    defaulting, is a string. *)
Lemma enrichRoute_returns prettifyError nb st rps p :
  has_route_props (st_cell st) rps ->
  Js.assoc_get "path" (default_path (info (st_cell st)) rps) = Some (VString p) ->
  exists st', enrichRoute prettifyError nb st = (Normal tt, st').
Proof.
  intros H Hp. rewrite (enrichRoute_object _ _ _ rps H).
  unfold enrich_outcome. rewrite Hp. simpl. eauto.
Qed.

(** A record that passes the schema registers nothing. *)
Lemma schema_success_registers_nothing prettifyError nb st st' :
  isRouteSupplier (attrs (st_cell st)) = true ->
  enrichRoute prettifyError nb st = (Normal tt, st') ->
  Zod.success (Zod.safeParse pageRouteSchema (route_of (st_cell st'))) = true ->
  st_issues st' = st_issues st.
Proof.
  intros Hsup Hrun Hok.
  destruct (enrichRoute_normal_inv _ nb st st' Hrun Hsup) as (rps & p & _ & _ & _ & Hiss).
  unfold issues_for in Hiss.
  destruct (Zod.safeParse pageRouteSchema (route_of (st_cell st'))); [| done].
  by rewrite app_nil_r in Hiss.
Qed.

(** ** Derived members *)

(** X24: on every call that returns for a carrier that passes the
    capability check, the route record holds a string [path] and its five
    derived members are the values computed from that path, whatever the
    caller had put there. *)
Theorem derived_members_recomputed :
  forall (prettifyError : ZodError -> string) (nb : NotebookCtx) (st st' : Store),
    isRouteSupplier (attrs (st_cell st)) = true ->
    enrichRoute prettifyError nb st = (Normal tt, st') ->
    exists p : string,
      route_field (st_cell st') "path" = VString p
      /\ route_field (st_cell st') "pathBasename" = VString (Path.basename p)
      /\ route_field (st_cell st') "pathBasenameNoExtn"
         = VString (nth 0 (Str.split "." (Path.basename p)) "")
      /\ route_field (st_cell st') "pathDirname" = VString (Path.dirname p)
      /\ route_field (st_cell st') "pathExtnTerminal"
         = VString (pe_terminal (pathExtensions p))
      /\ route_field (st_cell st') "pathExtns"
         = VArray (map VString (pe_extensions (pathExtensions p))) [].
Proof.
  intros pe nb st st' Hsup Hrun.
  destruct (enrichRoute_normal_inv pe nb st st' Hrun Hsup) as (rps & p & _ & Hp & H' & _).
  exists p.
  rewrite !(route_field_has_route_props _ _ _ H').
  rewrite derive_props_path, Hp.
  pose proof (derive_props_derived p (default_path (info (st_cell st)) rps)) as HD.
  unfold derived_keys in HD.
  repeat (apply Forall_cons_1 in HD as [-> HD]). done.
Qed.

Lemma derived_members_recomputed_witness :
  let st := store_example attrs_report None in
  let st' := snd (enrichRoute countIssues nb_example st) in
  exists p : string,
    route_field (st_cell st') "path" = VString p
    /\ route_field (st_cell st') "pathBasename" = VString (Path.basename p)
    /\ route_field (st_cell st') "pathBasenameNoExtn"
       = VString (nth 0 (Str.split "." (Path.basename p)) "")
    /\ route_field (st_cell st') "pathDirname" = VString (Path.dirname p)
    /\ route_field (st_cell st') "pathExtnTerminal"
       = VString (pe_terminal (pathExtensions p))
    /\ route_field (st_cell st') "pathExtns"
       = VArray (map VString (pe_extensions (pathExtensions p))) [].
Proof.
  intros st st'.
  apply (derived_members_recomputed countIssues nb_example st st');
    vm_compute; reflexivity.
Defined.

(** The caller-supplied ["stale"] is gone after the enrichment. *)
Example report_members_overwritten :
  let st' := snd (enrichRoute countIssues nb_example (store_example attrs_report None)) in
  route_field (st_cell st') "pathBasename" = VString "report.sql.ts"
  /\ route_field (st_cell st') "pathExtns" = VArray [VString ".sql"; VString "ts"] [].
Proof. by vm_compute. Qed.

(** C5: the derived members are not overwritten on every carrier that
    passes the capability check.  For the route
    [{ caption: "Home", pathBasename: "stale" }] on a cell without an info
    string the check passes, the path stays undefined, [basename] throws
    before the first of the five assignments is reached, and
    [pathBasename] is still the caller's ["stale"]. *)
Lemma stale_member_survives :
  isRouteSupplier attrs_stale = true
  /\ exists (e : JsError) (st' : Store),
       enrichRoute countIssues nb_example (store_example attrs_stale None)
       = (Throw e, st')
       /\ route_field (st_cell st') "path" = VUndefined
       /\ route_field (st_cell st') "pathBasename" = VString "stale".
Proof. split; [reflexivity |]. do 2 eexists. vm_compute. repeat split. Qed.

(** ** Defaulting the path *)

(** C6: when the route record has no path, or an empty one, and the cell
    has a non-empty info string, the enrichment returns, the path of the
    record is that info string and the derived members are computed from
    it; the record [{path: "", caption: "Home"}] on a cell with info
    ["index.sql"] ends with path ["index.sql"] and pathBasenameNoExtn
    ["index"]. *)
Theorem path_defaults_to_info :
  (forall (prettifyError : ZodError -> string) (nb : NotebookCtx) (st : Store)
          (rps : list (string * value)) (i : string),
      has_route_props (st_cell st) rps ->
      Js.truthy (default VUndefined (Js.assoc_get "path" rps)) = false ->
      info (st_cell st) = Some i ->
      i <> "" ->
      exists st' : Store,
        enrichRoute prettifyError nb st = (Normal tt, st')
        /\ route_field (st_cell st') "path" = VString i
        /\ Forall (fun k => route_field (st_cell st') k = derived_value i k)
                  derived_keys)
  /\ (let r := enrichRoute countIssues nb_example
                 (store_example attrs_home (Some "index.sql")) in
      fst r = Normal tt
      /\ route_field (st_cell (snd r)) "path" = VString "index.sql"
      /\ route_field (st_cell (snd r)) "pathBasenameNoExtn" = VString "index").
Proof.
  split; [| by vm_compute].
  intros pe nb st rps i H Hfalsy Hinfo Hi.
  assert (default_path (info (st_cell st)) rps
          = Js.assoc_set "path" (VString i) rps) as Hdef.
  { unfold default_path. rewrite Hfalsy, Hinfo. simpl.
    by apply String.eqb_neq in Hi as ->. }
  pose proof (enrichRoute_object pe nb st rps H) as Hrun.
  unfold enrich_outcome in Hrun. rewrite Hdef in Hrun.
  rewrite JsFacts.assoc_get_set_eq in Hrun. simpl in Hrun.
  eexists. split; [exact Hrun |]. simpl.
  pose proof (has_route_props_set st rps
                (derive_props i (Js.assoc_set "path" (VString i) rps)) H) as H'.
  split.
  - rewrite (route_field_has_route_props _ _ _ H').
    by rewrite derive_props_path, JsFacts.assoc_get_set_eq.
  - eapply Forall_impl; [apply (derive_props_derived i) |].
    intros k Hk. simpl in Hk.
    rewrite (route_field_has_route_props _ _ _ H'). by rewrite Hk.
Qed.

Lemma path_defaults_to_info_witness :
  let st := store_example attrs_home (Some "index.sql") in
  exists st' : Store,
    enrichRoute countIssues nb_example st = (Normal tt, st')
    /\ route_field (st_cell st') "path" = VString "index.sql"
    /\ Forall (fun k => route_field (st_cell st') k = derived_value "index.sql" k)
              derived_keys.
Proof.
  intros st.
  apply (proj1 path_defaults_to_info countIssues nb_example st
           [("path", VString ""); ("caption", VString "Home")] "index.sql").
  - exists [("route", VObject [("path", VString ""); ("caption", VString "Home")])],
           (VObject [("path", VString ""); ("caption", VString "Home")]).
    repeat split; reflexivity.
  - reflexivity.
  - reflexivity.
  - discriminate.
Defined.

(** ** Running the enrichment again *)

Lemma enriched_after_enrichment prettifyError nb st st' p :
  isRouteSupplier (attrs (st_cell st)) = true ->
  enrichRoute prettifyError nb st = (Normal tt, st') ->
  route_field (st_cell st') "path" = VString p ->
  p <> "" ->
  enriched (st_cell st') p.
Proof.
  intros Hsup Hrun Hp Hne.
  destruct (enrichRoute_normal_inv prettifyError nb st st' Hrun Hsup)
    as (rps & q & _ & Hq & H' & _).
  rewrite (route_field_has_route_props _ _ _ H'), derive_props_path, Hq in Hp.
  injection Hp as ->.
  exists (derive_props p (default_path (info (st_cell st)) rps)).
  split; [done |]. split; [| split; [done | apply derive_props_derived]].
  rewrite derive_props_path.
  destruct (Js.assoc_get "path" _); simpl in Hq; by subst.
Qed.

(** C8: a route record with a non-empty path whose derived members were
    computed by an enrichment is a fixed point: enriching the cell again
    returns normally and leaves the cell, hence each of pathBasename,
    pathBasenameNoExtn, pathDirname, pathExtnTerminal and pathExtns, as it
    was; and the cell a first enrichment returns with a non-empty path is
    such a cell. *)
Theorem enrichRoute_idempotent :
  forall (prettifyError : ZodError -> string) (nb : NotebookCtx),
    (forall (st : Store) (p : string),
        enriched (st_cell st) p ->
        exists st2 : Store,
          enrichRoute prettifyError nb st = (Normal tt, st2)
          /\ st_cell st2 = st_cell st
          /\ Forall (fun k => route_field (st_cell st2) k = route_field (st_cell st) k)
                    derived_keys)
    /\ (forall (st st1 : Store) (p : string),
          isRouteSupplier (attrs (st_cell st)) = true ->
          enrichRoute prettifyError nb st = (Normal tt, st1) ->
          route_field (st_cell st1) "path" = VString p ->
          p <> "" ->
          enriched (st_cell st1) p).
Proof.
  intros pe nb. split; [| intros; by eapply enriched_after_enrichment].
  intros st p (rps & H & Hp & Hne & Hd).
  assert (default_path (info (st_cell st)) rps = rps) as Hdef.
  { unfold default_path. rewrite Hp. simpl.
    by apply String.eqb_neq in Hne as ->. }
  pose proof (enrichRoute_object pe nb st rps H) as Hrun.
  unfold enrich_outcome in Hrun. rewrite Hdef, Hp in Hrun.
  change (default VUndefined (Some (VString p))) with (VString p) in Hrun.
  cbv beta iota zeta in Hrun.
  rewrite (derive_props_fixed p rps Hd) in Hrun.
  rewrite (set_route_props_id st rps H) in Hrun.
  eexists. split; [exact Hrun |]. simpl. split; [done |].
  by apply Forall_forall.
Qed.

Lemma enrichRoute_idempotent_witness :
  let st1 := snd (enrichRoute countIssues nb_example
                    (store_example attrs_home (Some "index.sql"))) in
  exists st2 : Store,
    enrichRoute countIssues nb_example st1 = (Normal tt, st2)
    /\ st_cell st2 = st_cell st1
    /\ Forall (fun k => route_field (st_cell st2) k = route_field (st_cell st1) k)
              derived_keys.
Proof.
  intros st1.
  apply (proj1 (enrichRoute_idempotent countIssues nb_example) st1 "index.sql").
  apply (proj2 (enrichRoute_idempotent countIssues nb_example)
           (store_example attrs_home (Some "index.sql")) st1 "index.sql").
  - reflexivity.
  - vm_compute. reflexivity.
  - vm_compute. reflexivity.
  - discriminate.
Defined.

(** ** Breadcrumbs *)

Section Crumbs.

Variable nav : Navigation.

Lemma add_payloads_snoc c ps p :
  add_payloads nav c (ps ++ [p]) = <[path p := ancestors nav p]> (add_payloads nav c ps).
Proof. unfold add_payloads. by rewrite fold_left_app. Qed.

Lemma add_payloads_app c ps qs :
  add_payloads nav c (ps ++ qs) = add_payloads nav (add_payloads nav c ps) qs.
Proof. unfold add_payloads. by rewrite fold_left_app. Qed.

(** The nested loops visit the payloads of the nodes one after the
    other. *)
Lemma add_nodes_payloads nodes c :
  add_nodes nav nodes c = add_payloads nav c (payloads_of nodes).
Proof.
  revert c. induction nodes as [|n r IH]; intros c; [done |].
  unfold payloads_of. simpl. rewrite add_payloads_app.
  unfold add_nodes in *. simpl. rewrite IH.
  by destruct (payloads n).
Qed.

Lemma add_payloads_lookup_other c ps k :
  (forall q, q ∈ ps -> path q <> k) ->
  add_payloads nav c ps !! k = c !! k.
Proof.
  induction ps as [|p ps IH] using rev_ind; intros Hk; [done |].
  rewrite add_payloads_snoc, lookup_insert_ne.
  - apply IH. intros q Hq. apply Hk. apply elem_of_app. by left.
  - apply Hk. apply elem_of_app. right. by apply list_elem_of_singleton.
Qed.

(** An entry comes from a payload with that path. *)
Lemma add_payloads_lookup_Some c ps k v :
  add_payloads nav c ps !! k = Some v ->
  c !! k = Some v \/ exists q, q ∈ ps /\ path q = k /\ v = ancestors nav q.
Proof.
  induction ps as [|p ps IH] using rev_ind; [by left |].
  rewrite add_payloads_snoc. destruct (decide (path p = k)) as [<-|Hne].
  - rewrite lookup_insert_eq. intros [= <-]. right. exists p.
    split; [| done]. apply elem_of_app. right. by apply list_elem_of_singleton.
  - rewrite lookup_insert_ne by done. intros [?|(q & Hq & ? & ?)]%IH; [by left |].
    right. exists q. split; [| done]. apply elem_of_app. by left.
Qed.

(** Every payload gets an entry under its own path. *)
Lemma add_payloads_lookup_elem c ps p :
  p ∈ ps ->
  exists q, q ∈ ps /\ path q = path p
            /\ add_payloads nav c ps !! path p = Some (ancestors nav q).
Proof.
  induction ps as [|x ps IH] using rev_ind; [by intros ?%elem_of_nil |].
  intros Hp. rewrite add_payloads_snoc.
  destruct (decide (path x = path p)) as [E|Hne].
  - exists x. rewrite E, lookup_insert_eq.
    split; [| done]. apply elem_of_app. right. by apply list_elem_of_singleton.
  - rewrite lookup_insert_ne by done.
    apply elem_of_app in Hp as [Hp | ->%list_elem_of_singleton]; [| done].
    destruct (IH Hp) as (q & Hq & ? & ?). exists q.
    split; [| done]. apply elem_of_app. by left.
Qed.

Lemma add_payloads_lookup_consistent ps p :
  ancestors_by_path nav ps ->
  p ∈ ps ->
  add_payloads nav ∅ ps !! path p = Some (ancestors nav p).
Proof.
  intros Hc Hp. destruct (add_payloads_lookup_elem ∅ ps p Hp) as (q & Hq & E & ->).
  f_equal. by apply Hc.
Qed.

Lemma payloads_of_perm nodes nodes' :
  Permutation nodes nodes' -> Permutation (payloads_of nodes) (payloads_of nodes').
Proof.
  unfold payloads_of. induction 1; simpl.
  - done.
  - by apply Permutation_app_head.
  - rewrite !app_assoc. apply Permutation_app_tail, Permutation_app_comm.
  - by etransitivity.
Qed.

(** With chains found by path the order of the payloads is immaterial. *)
Lemma add_payloads_perm ps ps' :
  ancestors_by_path nav ps ->
  Permutation ps ps' ->
  add_payloads nav ∅ ps = add_payloads nav ∅ ps'.
Proof.
  intros Hc Hperm. apply map_eq. intros k.
  assert (ancestors_by_path nav ps') as Hc'.
  { intros p q Hp Hq. apply Hc; by rewrite Hperm. }
  destruct (decide (k ∈ map path ps)) as [Hin | Hout].
  - apply (proj1 (list_elem_of_fmap _ _ _)) in Hin as (p & -> & Hp).
    rewrite (add_payloads_lookup_consistent ps p Hc Hp).
    symmetry. apply (add_payloads_lookup_consistent ps' p Hc').
    by rewrite <- Hperm.
  - rewrite !add_payloads_lookup_other; [done | |].
    + intros q Hq E. apply Hout. subst k.
      apply (proj2 (list_elem_of_fmap _ _ _)). exists q. split; [done |].
      by rewrite Hperm.
    + intros q Hq E. apply Hout. subst k.
      apply (proj2 (list_elem_of_fmap _ _ _)). eauto.
Qed.

End Crumbs.

Lemma populate_crumbs pathTree pathTreeNavigation routeAnns :
  pop_crumbs (populate pathTree pathTreeNavigation routeAnns)
  = compose_crumbs (pathTree routeAnns) (pathTreeNavigation (pathTree routeAnns)).
Proof. reflexivity. Qed.

Lemma root_level_payload forest p :
  (forall n, n ∈ roots forest -> n ∈ forest_nodes forest) ->
  root_level forest p -> p ∈ payloads_of (forest_nodes forest).
Proof.
  intros Hroots (n & ps & Hn & Hps & Hp).
  apply list_elem_of_In, in_flat_map. exists n. split.
  - by apply list_elem_of_In, Hroots.
  - rewrite Hps. by apply list_elem_of_In.
Qed.

(** C9: for every forest the composed map has, for each payload of each
    node, an entry under that payload's own path, and every entry is the
    ancestor chain of a payload with that path; when the navigation finds
    chains by path and gives root-level payloads the empty chain, the
    entry of a payload is its own chain, the entry of a root-level payload
    is the empty sequence, and visiting the nodes in another order yields
    the same map. *)
Theorem compose_crumbs_entries :
  forall (forest : Forest) (nav : Navigation),
    let ps := payloads_of (forest_nodes forest) in
    let crumbs := compose_crumbs forest nav in
    (forall p, p ∈ ps ->
       exists q, q ∈ ps /\ path q = path p
                 /\ crumbs !! path p = Some (ancestors nav q))
    /\ (forall k v, crumbs !! k = Some v ->
          exists q, q ∈ ps /\ path q = k /\ v = ancestors nav q)
    /\ (forest_navigation forest nav ->
          (forall p, p ∈ ps -> crumbs !! path p = Some (ancestors nav p))
          /\ (forall p, root_level forest p -> crumbs !! path p = Some [])
          /\ (forall nodes', Permutation (forest_nodes forest) nodes' ->
                add_nodes nav nodes' ∅ = crumbs)).
Proof.
  intros forest nav ps crumbs.
  assert (crumbs = add_payloads nav ∅ ps) as Hcr.
  { subst crumbs ps. unfold compose_crumbs, forest_nodes. apply add_nodes_payloads. }
  rewrite Hcr. split; [| split].
  - intros p Hp. by apply add_payloads_lookup_elem.
  - intros k v [H|H]%add_payloads_lookup_Some; [| done].
    by rewrite lookup_empty in H.
  - intros [Hroots Hroot Hchain]. split; [| split].
    + intros p Hp. by apply add_payloads_lookup_consistent.
    + intros p Hp. rewrite <- (Hroot p Hp).
      apply add_payloads_lookup_consistent; [done |].
      by apply root_level_payload.
    + intros nodes' Hperm. rewrite add_nodes_payloads. symmetry.
      apply add_payloads_perm; [done |]. by apply payloads_of_perm.
Qed.

Lemma forest_navigation_example : forest_navigation forest_example nav_example.
Proof.
  split.
  - intros n ->%list_elem_of_singleton. left.
  - intros p (n & ps & ->%list_elem_of_singleton & [= <-] & ->%list_elem_of_singleton).
    reflexivity.
  - intros p q _ _ E. unfold nav_example. simpl. by rewrite E.
Defined.

Lemma compose_crumbs_entries_witness :
  compose_crumbs forest_example nav_example !! "docs/index.sql" = Some []
  /\ compose_crumbs forest_example nav_example !! "docs/guide/intro.sql"
     = Some [route_example "docs/index.sql" "Docs"]
  /\ add_nodes nav_example [node_intro; node_guide; node_docs] ∅
     = compose_crumbs forest_example nav_example.
Proof.
  destruct (compose_crumbs_entries forest_example nav_example)
    as (_ & _ & H).
  destruct (H forest_navigation_example) as (Hown & Hroot & Hperm).
  split; [| split].
  - apply (Hroot (route_example "docs/index.sql" "Docs")).
    exists node_docs, [route_example "docs/index.sql" "Docs"].
    split; [left | split; [reflexivity | left]].
  - apply (Hown (route_example "docs/guide/intro.sql" "Intro")).
    right. left.
  - apply Hperm. unfold forest_nodes. simpl.
    change [node_intro; node_guide; node_docs] with (rev [node_docs; node_guide; node_intro]).
    apply Permutation_rev.
Defined.

(** ** The path library on joined paths *)

Module PathFacts.
Import Str Path StrFacts.

Abbreviation sep := ("/"%char).

Lemma isSep_true c : isPosixPathSeparator c = true <-> c = sep.
Proof. apply Ascii.eqb_eq. Qed.

Lemma notSep_true c : notSep c = true <-> c <> sep.
Proof.
  unfold notSep, isPosixPathSeparator.
  destruct (Ascii.eqb_spec c sep); simpl; split; congruence.
Qed.

Lemma no_sep_notSep (l : list ascii) : sep ∉ l <-> forall c, c ∈ l -> notSep c = true.
Proof.
  split.
  - intros H c Hc. apply notSep_true. by intros ->.
  - intros H Hin. by apply H, notSep_true in Hin.
Qed.

Lemma drop_while_false_head {A} (p : A -> bool) x l :
  p x = false -> drop_while p (x :: l) = x :: l.
Proof. simpl. by intros ->. Qed.

Lemma drop_while_app_all {A} (p : A -> bool) l r :
  (forall x, x ∈ l -> p x = true) -> drop_while p (l ++ r) = drop_while p r.
Proof.
  induction l as [|x l IH]; intros H; [done |]. simpl.
  rewrite (H x) by left. apply IH. intros y Hy. apply H. by right.
Qed.

Lemma take_while_app_all {A} (p : A -> bool) l r :
  (forall x, x ∈ l -> p x = true) -> take_while p (l ++ r) = l ++ take_while p r.
Proof.
  induction l as [|x l IH]; intros H; [done |]. simpl.
  rewrite (H x) by left. f_equal. apply IH. intros y Hy. apply H. by right.
Qed.

Lemma drop_while_nil {A} (p : A -> bool) l :
  drop_while p l = [] -> forall x, x ∈ l -> p x = true.
Proof.
  induction l as [|y l IH]; simpl; [by intros _ x ?%elem_of_nil |].
  destruct (p y) eqn:E; [| done].
  intros H x [->|Hx]%elem_of_cons; auto.
Qed.

Lemma drop_while_head {A} (p : A -> bool) l x r :
  drop_while p l = x :: r -> p x = false.
Proof.
  induction l as [|y l IH]; simpl; [done |].
  destruct (p y) eqn:E; [done |]. by intros [= <- _].
Qed.

(** Dropping separators from a list without any changes nothing. *)
Lemma drop_seps_no_sep (l : list ascii) : sep ∉ l -> drop_while isPosixPathSeparator l = l.
Proof.
  destruct l as [|c l]; [done |]. intros H. apply drop_while_false_head.
  apply not_elem_of_cons in H as [H _].
  apply not_true_is_false. by intros ?%isSep_true.
Qed.

Lemma drop_seps_no_sep_head (l r : list ascii) :
  l <> [] -> sep ∉ l -> drop_while isPosixPathSeparator (l ++ r) = l ++ r.
Proof.
  destruct l as [|c l]; [done |]. intros _ H. apply drop_while_false_head.
  apply not_elem_of_cons in H as [H _].
  apply not_true_is_false. by intros ?%isSep_true.
Qed.

Lemma no_sep_rev (l : list ascii) : sep ∉ l -> sep ∉ rev l.
Proof. intros H Hin. apply H. by apply list_elem_of_In, in_rev, list_elem_of_In. Qed.

Lemma strip_no_sep (l : list ascii) : sep ∉ l -> stripTrailingSeparators l = l.
Proof.
  destruct l as [|c l]; [done |]. intros H. simpl.
  apply not_elem_of_cons in H as [_ H].
  by rewrite (drop_seps_no_sep _ (no_sep_rev _ H)), rev_involutive.
Qed.

(** The basename is ["/"] or has no separator at all. *)
Lemma basename_chars_no_sep p :
  basename_chars p = [sep] \/ sep ∉ basename_chars p.
Proof.
  unfold basename_chars, lastPathSegment.
  destruct (drop_while isPosixPathSeparator (rev p)) as [|c r] eqn:E.
  - pose proof (drop_while_nil _ _ E) as Hall.
    destruct p as [|c0 p']; [right; apply not_elem_of_nil |]. left. simpl.
    assert (c0 = sep) as ->.
    { apply isSep_true, Hall, list_elem_of_In, in_rev. rewrite rev_involutive. left. done. }
    assert (drop_while isPosixPathSeparator (rev p') = []) as ->; [| done].
    rewrite <- (app_nil_r (rev p')). rewrite drop_while_app_all; [done |].
    intros x Hx. apply Hall. simpl. apply elem_of_app. by left.
  - right.
    assert (sep ∉ rev (take_while notSep (c :: r))) as Hns.
    { apply no_sep_rev. generalize (c :: r). intros l.
      induction l as [|y l IH]; simpl; [apply not_elem_of_nil |].
      destruct (notSep y) eqn:Ey; [| apply not_elem_of_nil].
      apply not_elem_of_cons. split; [| done].
      intros <-. by apply notSep_true in Ey. }
    by rewrite strip_no_sep.
Qed.

Lemma ends_with_sep_snoc l c : ends_with_sep (l ++ [c]) = isPosixPathSeparator c.
Proof. unfold ends_with_sep. by rewrite rev_unit. Qed.

Lemma ends_with_sep_app l r : r <> [] -> ends_with_sep (l ++ r) = ends_with_sep r.
Proof.
  intros Hr. destruct (exists_last Hr) as (r' & c & ->).
  by rewrite app_assoc, !ends_with_sep_snoc.
Qed.

Lemma no_sep_ends (l : list ascii) : sep ∉ l -> ends_with_sep l = false.
Proof.
  intros H. unfold ends_with_sep. apply no_sep_rev in H.
  destruct (rev l) as [|c r]; [done |]. simpl.
  apply not_elem_of_cons in H as [H _].
  apply not_true_is_false. by intros ?%isSep_true.
Qed.

(** [basename] of a path that ends in a separator-free name after a
    separator, or is that name. *)
Lemma basename_chars_app (pre f : list ascii) :
  f <> [] -> sep ∉ f ->
  (pre = [] \/ ends_with_sep pre = true) ->
  basename_chars (pre ++ f) = f.
Proof.
  intros Hf Hns Hpre. unfold basename_chars, lastPathSegment.
  rewrite rev_app_distr.
  assert (rev f <> []) as Hrf by (by intros ?%(f_equal (@rev _)); rewrite rev_involutive in *).
  rewrite (drop_seps_no_sep_head (rev f) (rev pre)) by (done || by apply no_sep_rev).
  destruct (rev f ++ rev pre) as [|c r] eqn:E.
  { by apply app_eq_nil in E as [? _]. }
  rewrite <- E.
  rewrite take_while_app_all by (by apply no_sep_notSep, no_sep_rev).
  assert (take_while notSep (rev pre) = []) as ->.
  { destruct Hpre as [-> | He]; [done |]. unfold ends_with_sep in He.
    destruct (rev pre) as [|x l]; [done |]. simpl in *.
    unfold notSep. by rewrite He. }
  rewrite app_nil_r, rev_involutive. by apply strip_no_sep.
Qed.

Lemma drop_nonseps_no_sep (l r : list ascii) :
  sep ∉ l -> drop_while notSep (l ++ r) = drop_while notSep r.
Proof. intros H. apply drop_while_app_all. by apply no_sep_notSep. Qed.

Lemma rev_nonempty {A} (l : list A) : l <> [] -> rev l <> [].
Proof. intros H E. apply H. by rewrite <- (rev_involutive l), E. Qed.

Lemma dirname_chars_name (f : list ascii) :
  f <> [] -> sep ∉ f -> dirname_chars f = ["."%char].
Proof.
  destruct f as [|c0 r]; [done |]. intros _ H.
  apply not_elem_of_cons in H as [Hc Hr]. simpl.
  rewrite (drop_seps_no_sep _ (no_sep_rev _ Hr)).
  rewrite <- (app_nil_r (rev r)), drop_nonseps_no_sep by by apply no_sep_rev.
  simpl. destruct (isPosixPathSeparator c0) eqn:E; [| done].
  by apply isSep_true in E.
Qed.

Lemma dirname_chars_root_name (f : list ascii) :
  f <> [] -> sep ∉ f -> dirname_chars (sep :: f) = [sep].
Proof.
  intros _ H. simpl.
  rewrite (drop_seps_no_sep _ (no_sep_rev _ H)).
  by rewrite <- (app_nil_r (rev f)), drop_nonseps_no_sep by by apply no_sep_rev.
Qed.

Lemma ends_with_sep_false_rev (l : list ascii) :
  ends_with_sep l = false -> drop_while isPosixPathSeparator (rev l) = rev l.
Proof.
  unfold ends_with_sep. destruct (rev l) as [|c r]; [done |]. simpl. by intros ->.
Qed.

Lemma dirname_chars_dir_name (X f : list ascii) :
  X <> [] -> ends_with_sep X = false -> f <> [] -> sep ∉ f ->
  dirname_chars (X ++ sep :: f) = X.
Proof.
  intros HX He Hf Hns. destruct X as [|c0 X']; [done |]. simpl.
  rewrite rev_app_distr. simpl. rewrite <- !app_assoc. simpl.
  rewrite (drop_seps_no_sep_head (rev f)) by (by apply rev_nonempty || by apply no_sep_rev).
  rewrite drop_nonseps_no_sep by by apply no_sep_rev.
  simpl. rewrite rev_involutive.
  destruct X' as [|x X'']; [done |].
  assert (ends_with_sep (x :: X'') = false) as He'.
  { change (c0 :: x :: X'') with ([c0] ++ x :: X'') in He.
    by rewrite ends_with_sep_app in He. }
  by rewrite (ends_with_sep_false_rev _ He'), rev_involutive.
Qed.

(** [dirname] returns ["/"] or a non-empty path that does not end in a
    separator. *)
Lemma dirname_chars_shape (p : list ascii) :
  dirname_chars p <> []
  /\ (dirname_chars p = [sep] \/ ends_with_sep (dirname_chars p) = false).
Proof.
  destruct p as [|c0 r]; [split; [done | by right] |]. simpl.
  destruct (drop_while notSep (drop_while isPosixPathSeparator (rev r))) as [|y before].
  - destruct (isPosixPathSeparator c0); split; auto; done.
  - split; [done |]. rewrite rev_involutive.
    destruct (drop_while isPosixPathSeparator before) as [|z t] eqn:E.
    + simpl. destruct (isPosixPathSeparator c0) eqn:Ec.
      * left. by apply isSep_true in Ec as ->.
      * right. unfold ends_with_sep. simpl. done.
    + right. apply drop_while_head in E.
      change (c0 :: rev (z :: t)) with ([c0] ++ rev (z :: t)).
      rewrite ends_with_sep_app by (by apply rev_nonempty).
      unfold ends_with_sep. rewrite rev_involutive. done.
Qed.

(** *** Normalisation *)

Lemma dotdot_good : good_seg dotdot.
Proof.
  split; [done |]. unfold dotdot. simpl.
  intros H. repeat (apply elem_of_cons in H as [H|H]; [done |]).
  by apply elem_of_nil in H.
Qed.

Lemma normalizeStep_good allow acc seg :
  Forall good_seg acc -> sep ∉ seg -> Forall good_seg (normalizeStep allow acc seg).
Proof.
  intros Hacc Hseg. unfold normalizeStep.
  repeat case_decide; try done.
  - destruct acc as [|top below].
    + destruct allow; [| done]. constructor; [apply dotdot_good | done].
    + case_decide.
      * destruct allow; [| done]. constructor; [apply dotdot_good | done].
      * by apply Forall_cons_1 in Hacc as [_ ?].
  - by constructor.
Qed.

Lemma fold_normalizeStep_good allow segs acc :
  Forall (fun s => sep ∉ s) segs -> Forall good_seg acc ->
  Forall good_seg (fold_left (normalizeStep allow) segs acc).
Proof.
  revert acc. induction segs as [|s segs IH]; intros acc Hs Hacc; [done |].
  apply Forall_cons_1 in Hs as [Hs1 Hs2]. simpl.
  apply IH; [done |]. by apply normalizeStep_good.
Qed.

Lemma normalizeStep_plain allow acc (f : list ascii) :
  f <> [] -> f <> ["."%char] -> f <> dotdot -> normalizeStep allow acc f = f :: acc.
Proof. intros. unfold normalizeStep. by repeat case_decide. Qed.

Lemma join_with_snoc (l : list (list ascii)) (f : list ascii) :
  join_with [sep] (l ++ [f])
  = match l with [] => f | _ => join_with [sep] l ++ sep :: f end.
Proof.
  induction l as [|x l IH]; [done |].
  destruct l as [|y l]; [done |].
  change ((x :: y :: l) ++ [f]) with (x :: ((y :: l) ++ [f])).
  change (join_with [sep] (x :: (y :: l) ++ [f]))
    with (x ++ [sep] ++ join_with [sep] ((y :: l) ++ [f])).
  rewrite IH.
  change (join_with [sep] (x :: y :: l)) with (x ++ [sep] ++ join_with [sep] (y :: l)).
  by rewrite <- !app_assoc.
Qed.

Lemma join_good (ns : list (list ascii)) :
  ns <> [] -> Forall good_seg ns ->
  join_with [sep] ns <> [] /\ ends_with_sep (join_with [sep] ns) = false.
Proof.
  intros Hne Hgood. destruct (exists_last Hne) as (l & x & ->).
  apply Forall_app in Hgood as [_ [[Hx1 Hx2] _]%Forall_cons_1].
  rewrite join_with_snoc. destruct l as [|y l].
  - split; [done | by apply no_sep_ends].
  - split; [by intros [_ ?]%app_eq_nil |].
    rewrite ends_with_sep_app by done.
    change (sep :: x) with ([sep] ++ x).
    rewrite ends_with_sep_app by done. by apply no_sep_ends.
Qed.

(** Joining a directory as [dirname] returns it with a plain file name:
    the result has that name as its basename and the normalised directory
    as its dirname. *)
Lemma normalize_dir_name (d f : list ascii) :
  d <> [] ->
  (d = [sep] \/ ends_with_sep d = false) ->
  good_seg f -> f <> ["."%char] -> f <> dotdot ->
  dirname_chars (normalize_chars (d ++ sep :: f)) = normalize_chars d
  /\ basename_chars (normalize_chars (d ++ sep :: f)) = f.
Proof.
  intros Hd Hshape [Hf Hns] Hdot Hdd.
  destruct d as [|c0 d']; [done |].
  set (d := c0 :: d') in *.
  set (abs := starts_with_sep d).
  set (ns := rev (fold_left (normalizeStep (negb abs)) (split_on sep d) [])).
  assert (Forall good_seg ns) as Hgood.
  { subst ns. apply Forall_rev, fold_normalizeStep_good; [| done].
    apply split_on_no_sep. }
  assert (normalizeString (d ++ sep :: f) (negb abs) = join_with [sep] (ns ++ [f])) as Hp1.
  { unfold normalizeString. rewrite split_on_sep_app by done.
    rewrite fold_left_app. simpl. rewrite normalizeStep_plain by done. done. }
  assert (normalize_chars (d ++ sep :: f)
          = if abs then sep :: join_with [sep] (ns ++ [f]) else join_with [sep] (ns ++ [f]))
    as Ha.
  { unfold normalize_chars.
    change (starts_with_sep (d ++ sep :: f)) with abs.
    change (match d ++ sep :: f with [] => ["."%char] | _ :: _ => ?x end) with x.
    cbv zeta. rewrite Hp1.
    assert (join_with [sep] (ns ++ [f]) <> []) as Hne.
    { rewrite join_with_snoc. destruct ns; [done | by intros [_ ?]%app_eq_nil]. }
    rewrite (decide_False (P := join_with [sep] (ns ++ [f]) = [])) by done.
    rewrite (decide_False (P := join_with [sep] (ns ++ [f]) = [])) by done.
    rewrite ends_with_sep_app by done.
    change (sep :: f) with ([sep] ++ f). rewrite ends_with_sep_app by done.
    by rewrite no_sep_ends. }
  assert (normalize_chars d
          = match ns with
            | [] => if abs then [sep] else ["."%char]
            | _ => if abs then sep :: join_with [sep] ns else join_with [sep] ns
            end) as Hnd.
  { unfold normalize_chars.
    change (match d with [] => ["."%char] | _ :: _ => ?x end) with x.
    cbv zeta. fold abs. unfold normalizeString. fold ns.
    destruct ns as [|n1 nr] eqn:Ens.
    - simpl. destruct abs eqn:Eabs; [done |].
      simpl. destruct Hshape as [E | ->]; [| done].
      subst d. injection E as -> ->. done.
    - destruct (join_good (n1 :: nr)) as [Hj1 Hj2]; [done | done |].
      rewrite (decide_False (P := join_with [sep] (n1 :: nr) = [])) by done.
      rewrite (decide_False (P := join_with [sep] (n1 :: nr) = [])) by done.
      destruct Hshape as [E | ->]; [| done].
      exfalso. subst d. injection E as -> ->. by vm_compute in Ens. }
  rewrite Ha, Hnd, join_with_snoc. clear Ha Hnd Hp1.
  destruct ns as [|n1 nr].
  - destruct abs.
    + split; [by apply dirname_chars_root_name |].
      apply (basename_chars_app [sep] f); auto.
    + split; [by apply dirname_chars_name |].
      apply (basename_chars_app [] f); auto.
  - destruct (join_good (n1 :: nr)) as [Hj1 Hj2]; [done | done |].
    destruct abs.
    + split.
      * apply (dirname_chars_dir_name (sep :: join_with [sep] (n1 :: nr)) f); try done.
        change (sep :: join_with [sep] (n1 :: nr))
          with ([sep] ++ join_with [sep] (n1 :: nr)).
        by rewrite ends_with_sep_app.
      * change (sep :: join_with [sep] (n1 :: nr) ++ sep :: f)
          with ((sep :: join_with [sep] (n1 :: nr)) ++ [sep] ++ f).
        rewrite app_assoc. apply basename_chars_app; try done.
        right. by rewrite ends_with_sep_snoc.
    + split.
      * by apply dirname_chars_dir_name.
      * change (join_with [sep] (n1 :: nr) ++ sep :: f)
          with (join_with [sep] (n1 :: nr) ++ [sep] ++ f).
        rewrite app_assoc. apply basename_chars_app; try done.
        right. by rewrite ends_with_sep_snoc.
Qed.

End PathFacts.

(** ** The auto-materialized path *)

Section AutoMaterializable.
Import Str Path StrFacts PathFacts.

Lemma join_chars_two (d f : list ascii) :
  d <> [] -> f <> [] -> join_chars [d; f] = normalize_chars (d ++ sep :: f).
Proof.
  intros Hd Hf. unfold join_chars.
  rewrite filter_cons_True by done. rewrite filter_cons_True by done.
  rewrite filter_nil.
  change (join_with [sep] [d; f]) with (d ++ [sep] ++ f).
  rewrite decide_False; [done |]. by intros [? _]%app_eq_nil.
Qed.

Lemma split_basename (p : string) :
  split "." (basename p) = map str (split_on "." (basename_chars (chars p))).
Proof. unfold split, basename. by rewrite chars_str. Qed.

Lemma nth_split_basename (p : string) i :
  nth i (split "." (basename p)) ""
  = str (nth i (split_on "." (basename_chars (chars p))) []).
Proof. rewrite split_basename. apply (map_nth str _ [] i). Qed.

(** The parts of a basename with at least two dots hold neither a dot nor
    a separator. *)
Lemma parts_clean (p : string) i :
  3 <= length (split_on "." (basename_chars (chars p))) ->
  i < length (split_on "." (basename_chars (chars p))) ->
  ("."%char ∉ nth i (split_on "." (basename_chars (chars p))) [])
  /\ (sep ∉ nth i (split_on "." (basename_chars (chars p))) []).
Proof.
  intros Hlen Hi.
  set (segs := split_on "." (basename_chars (chars p))) in *.
  assert (nth i segs [] ∈ segs) as Hin by (by apply list_elem_of_In, nth_In).
  split.
  - pose proof (split_on_no_sep "." (basename_chars (chars p))) as H.
    rewrite Forall_forall in H. by apply H.
  - pose proof (split_on_incl "." (basename_chars (chars p))) as H.
    rewrite Forall_forall in H. intros Hs. apply (H _ Hin) in Hs.
    destruct (basename_chars_no_sep (chars p)) as [E | Hno]; [| done].
    subst segs. rewrite E in Hlen. simpl in Hlen. lia.
Qed.

Lemma join_split_no_dot (s : string) :
  "."%char ∉ chars s -> Str.join "." (slice_0_m1 (split "." s)) = "".
Proof.
  intros H. unfold split. by rewrite (split_on_no_sep_id _ _ H).
Qed.

Lemma auto_name_chars (stem mid : string) :
  chars (stem +:+ ".auto." +:+ mid)
  = chars stem ++ "."%char :: chars "auto." ++ chars mid.
Proof. by rewrite chars_app. Qed.

Lemma auto_name_good (stem mid : string) :
  sep ∉ chars stem -> sep ∉ chars mid ->
  good_seg (chars (stem +:+ ".auto." +:+ mid))
  /\ (chars (stem +:+ ".auto." +:+ mid) <> ["."%char])
  /\ (chars (stem +:+ ".auto." +:+ mid) <> dotdot).
Proof.
  intros Hs Hm. rewrite auto_name_chars.
  assert ("a"%char ∈ chars stem ++ "."%char :: chars "auto." ++ chars mid) as Ha.
  { apply elem_of_app. right. right. left. }
  split; [split |].
  - by intros [_ ?]%app_eq_nil.
  - intros [?|H]%elem_of_app; [done |]. simpl in H.
    repeat (apply elem_of_cons in H as [H|H]; [done |]). done.
  - split; intros E; rewrite E in Ha; unfold dotdot in Ha; simpl in Ha;
      repeat (apply elem_of_cons in Ha as [Ha|Ha]; [done |]);
      by apply elem_of_nil in Ha.
Qed.

Lemma auto_false (p : string) :
  length (pe_extensions (pathExtensions p)) < 2 ->
  pe_autoMaterializable (pathExtensions p) tt = AutoFalse.
Proof.
  intros H. unfold pathExtensions in *. simpl in *.
  by apply Nat.ltb_lt in H as ->.
Qed.

Lemma extensions_length (p : string) :
  length (pe_extensions (pathExtensions p))
  = length (split_on "." (basename_chars (chars p))) - 1.
Proof.
  unfold pathExtensions, pe_extensions, map_eia, slice_1.
  rewrite mapi_from_length, split_basename.
  generalize (split_on "." (basename_chars (chars p))). intros l.
  destruct l; simpl; [done |]. rewrite length_map. lia.
Qed.

Lemma auto_path (p : string) :
  2 <= length (pe_extensions (pathExtensions p)) ->
  pe_autoMaterializable (pathExtensions p) tt
  = AutoPathOf
      (Path.join
         [dirname p;
          nth 0 (split "." (basename p)) "" +:+ ".auto."
          +:+ nth (length (split "." (basename p)) - 2) (split "." (basename p)) ""]).
Proof.
  intros H. pose proof H as Hlen. rewrite extensions_length in Hlen.
  unfold pathExtensions in *. simpl in *.
  apply Nat.ltb_ge in H as ->.
  rewrite join_split_no_dot; [done |].
  rewrite nth_split_basename, chars_str.
  rewrite split_basename, length_map.
  apply parts_clean; lia.
Qed.

(** C2: when the basename of a path has at least two extensions, the
    auto-materialized path is [join(dirname(path), stem.auto.mid)], with
    [stem] the first and [mid] the second-to-last dot-split part of the
    basename; its basename is that file name, the stem of that basename
    is the stem of the input, and its directory is the directory of the
    input as [join] normalises it, the very same string when that is
    already normal.  With fewer than two extensions the
    answer is [false].  ["/docs/report.sql.ts"] gives
    ["/docs/report.auto.sql"]. *)
Theorem autoMaterializable_path :
  (forall p : string,
     let x := pathExtensions p in
     let parts := split "." (basename p) in
     let stem := nth 0 parts "" in
     let mid := nth (length parts - 2) parts "" in
     let auto := Path.join [dirname p; stem +:+ ".auto." +:+ mid] in
     (2 <= length (pe_extensions x) ->
        pe_autoMaterializable x tt = AutoPathOf auto
        /\ basename auto = stem +:+ ".auto." +:+ mid
        /\ nth 0 (split "." (basename auto)) "" = stem
        /\ dirname auto = normalize (dirname p)
        /\ (normalize (dirname p) = dirname p -> dirname auto = dirname p))
     /\ (length (pe_extensions x) < 2 -> pe_autoMaterializable x tt = AutoFalse))
  /\ pe_autoMaterializable (pathExtensions "/docs/report.sql.ts") tt
     = AutoPathOf "/docs/report.auto.sql".
Proof.
  split; [| by vm_compute].
  intros p x parts stem mid auto. split; [| apply auto_false].
  intros H. split; [by apply auto_path |].
  pose proof H as Hlen. subst x. rewrite extensions_length in Hlen.
  assert (("."%char ∉ chars stem) /\ (sep ∉ chars stem)) as [Hsd Hss].
  { subst stem parts. rewrite nth_split_basename, chars_str. apply parts_clean; lia. }
  assert (sep ∉ chars mid) as Hms.
  { subst mid parts. rewrite nth_split_basename, chars_str.
    rewrite split_basename, length_map. apply parts_clean; lia. }
  destruct (auto_name_good stem mid Hss Hms) as (Hgood & Hnd & Hndd).
  destruct (dirname_chars_shape (chars p)) as [Hd1 Hd2].
  assert (chars auto
          = normalize_chars (dirname_chars (chars p) ++ sep
                             :: chars (stem +:+ ".auto." +:+ mid))) as Hauto.
  { subst auto. unfold Path.join. rewrite chars_str. simpl map.
    unfold dirname at 1. rewrite chars_str.
    apply join_chars_two; [done | apply Hgood]. }
  destruct (normalize_dir_name _ _ Hd1 Hd2 Hgood Hnd Hndd) as [Hdir Hbase].
  assert (basename auto = stem +:+ ".auto." +:+ mid) as Hb.
  { unfold basename at 1. rewrite Hauto, Hbase. apply str_chars. }
  assert (dirname auto = normalize (dirname p)) as Hdn.
  { unfold dirname at 1. rewrite Hauto, Hdir.
    unfold normalize, dirname. by rewrite chars_str. }
  split; [exact Hb | split; [| split; [exact Hdn | by intros <-]]].
  rewrite Hb. unfold split. rewrite auto_name_chars.
  rewrite split_on_app_sep by done. simpl. apply str_chars.
Qed.

Lemma autoMaterializable_path_witness :
  pe_autoMaterializable (pathExtensions "a//b/x.sql.ts") tt = AutoPathOf "a/b/x.auto.sql"
  /\ dirname "a/b/x.auto.sql" = normalize (dirname "a//b/x.sql.ts").
Proof.
  destruct (proj1 (proj1 autoMaterializable_path "a//b/x.sql.ts"))
    as (H1 & _ & _ & H2 & _).
  - vm_compute. lia.
  - split; [exact H1 | exact H2].
Defined.

End AutoMaterializable.

(** * Further properties of the route module *)

(** ** Outcomes of the enrichment *)

(** The three ways a call can end: nothing to do, a TypeError before any
    assignment, or a normal return after the assignments. *)
Lemma enrichRoute_cases prettifyError nb st :
  (isRouteSupplier (attrs (st_cell st)) = false
   /\ enrichRoute prettifyError nb st = (Normal tt, st))
  \/ (isRouteSupplier (attrs (st_cell st)) = true
      /\ exists e, enrichRoute prettifyError nb st = (Throw e, st))
  \/ (exists rps p,
        has_route_props (st_cell st) rps
        /\ default VUndefined
             (Js.assoc_get "path" (default_path (info (st_cell st)) rps)) = VString p
        /\ enrichRoute prettifyError nb st
           = (Normal tt,
              {| st_cell :=
                   st_cell (set_route_props
                              (derive_props p (default_path (info (st_cell st)) rps)) st);
                 st_issues :=
                   st_issues st
                   ++ issues_for prettifyError nb (st_cell st)
                        (route_of
                           (st_cell (set_route_props
                                       (derive_props p
                                          (default_path (info (st_cell st)) rps)) st))) |})).
Proof.
  destruct (isRouteSupplier (attrs (st_cell st))) eqn:Hsup.
  - right. destruct (supplier_cases _ Hsup) as [(aps & Ha & Hr) | [rps H]].
    + left. split; [done |]. eexists. by apply (enrichRoute_null _ _ _ aps).
    + rewrite (enrichRoute_object prettifyError nb st rps H). unfold enrich_outcome.
      destruct (default VUndefined _) as [| | | |p| |] eqn:Ep;
        try (left; split; [done | by eexists]).
      right. exists rps, p. by rewrite Ep.
  - left. split; [done |]. by apply enrichRoute_skip.
Qed.

(** X1: a call that throws has changed nothing: the cell, its route
    record and the registered issues are as before the call. *)
Theorem enrichRoute_throw_changes_nothing :
  forall (prettifyError : ZodError -> string) (nb : NotebookCtx)
         (st st' : Store) (e : JsError),
    enrichRoute prettifyError nb st = (Throw e, st') -> st' = st.
Proof.
  intros pe nb st st' e Hrun.
  destruct (enrichRoute_cases pe nb st)
    as [[_ H] | [[_ [e' H]] | (rps & p & _ & _ & H)]];
    rewrite H in Hrun; by inversion Hrun.
Qed.

Lemma enrichRoute_throw_changes_nothing_witness :
  let st := store_example attrs_stale None in
  snd (enrichRoute countIssues nb_example st) = st.
Proof.
  intros st.
  apply (enrichRoute_throw_changes_nothing countIssues nb_example st
           (snd (enrichRoute countIssues nb_example st))
           (TypeError (assertPath_message VUndefined))).
  vm_compute. reflexivity.
Defined.

Lemma route_of_null c aps :
  Js.own_props (attrs c) = Some aps -> Js.assoc_get "route" aps = Some VNull ->
  route_of c = VNull.
Proof. intros Ha Hr. unfold route_of, prop_of. rewrite Ha. simpl. by rewrite Hr. Qed.

(** X2: for a cell that passes the capability check the call returns
    normally exactly when the route is not [null] and its path is a
    string, or is falsy while the cell has a non-empty info string; in
    every other case it throws. *)
Theorem enrichRoute_returns_iff :
  forall (prettifyError : ZodError -> string) (nb : NotebookCtx) (st : Store),
    isRouteSupplier (attrs (st_cell st)) = true ->
    ((exists st', enrichRoute prettifyError nb st = (Normal tt, st'))
     <->
     route_of (st_cell st) <> VNull
     /\ ((exists s, route_field (st_cell st) "path" = VString s)
         \/ (Js.truthy (route_field (st_cell st) "path") = false
             /\ truthy_info (info (st_cell st)) = true))).
Proof.
  intros pe nb st Hsup.
  destruct (supplier_cases _ Hsup) as [(aps & Ha & Hr) | [rps H]].
  - rewrite (enrichRoute_null pe nb st aps Ha Hr).
    rewrite (route_of_null _ _ Ha Hr). split; [by intros [? ?] | by intros [? _]].
  - rewrite (enrichRoute_object pe nb st rps H). unfold enrich_outcome.
    rewrite (route_field_has_route_props _ _ _ H).
    assert (route_of (st_cell st) <> VNull) as Hnn.
    { intros E. apply route_of_has_route_props in H. by rewrite E in H. }
    unfold default_path.
    destruct (Js.truthy (default VUndefined (Js.assoc_get "path" rps))) eqn:Et;
      destruct (truthy_info (info (st_cell st))) eqn:Ei; simpl.
    3:{ rewrite JsFacts.assoc_get_set_eq. simpl. split; [| by eauto].
        intros _. split; [done |]. by right. }
    all: destruct (default VUndefined (Js.assoc_get "path" rps)) eqn:Ep;
      (split;
       [ intros [st' Hrun]; first [done | split; [done |]; left; by eexists]
       | intros [_ [[? ?] | [? ?]]]; first [done | by eexists] ]).
Qed.

Lemma enrichRoute_returns_iff_witness :
  exists st', enrichRoute countIssues nb_example
                (store_example attrs_home (Some "index.sql")) = (Normal tt, st').
Proof.
  apply (proj2 (enrichRoute_returns_iff countIssues nb_example
                  (store_example attrs_home (Some "index.sql")) eq_refl)).
  split; [discriminate |]. left. by exists "".
Defined.

(** ** What the enrichment leaves alone *)

Lemma derive_props_other p rps k :
  k ∉ derived_keys ->
  Js.assoc_get k (derive_props p rps) = Js.assoc_get k rps.
Proof.
  unfold derived_keys. intros Hk. unfold derive_props.
  rewrite !JsFacts.assoc_get_set_ne; [done | ..];
    intros ->; apply Hk; repeat first [left | right].
Qed.

Lemma default_path_other i rps k :
  k <> "path" ->
  Js.assoc_get k (default_path i rps) = Js.assoc_get k rps.
Proof.
  intros Hk. unfold default_path.
  destruct (_ && _); [| done]. by rewrite JsFacts.assoc_get_set_ne.
Qed.

Lemma prop_of_attrs_set_route st rps0 rps k :
  has_route_props (st_cell st) rps0 ->
  k <> "route" ->
  prop_of (attrs (st_cell (set_route_props rps st))) k = prop_of (attrs (st_cell st)) k.
Proof.
  intros (aps & r & Ha & _) Hk. unfold prop_of. simpl.
  rewrite JsFacts.own_props_with_props by (by rewrite Ha). rewrite Ha. simpl.
  by rewrite JsFacts.assoc_get_set_ne.
Qed.

(** X3: whatever the outcome, a call changes nothing but the route's
    [path] and its five derived members: the info string and line span of
    the cell, every other member of [attrs] and every other member of the
    route record (caption, title, unknown members, ...) read as before. *)
Theorem enrichRoute_frame :
  forall (prettifyError : ZodError -> string) (nb : NotebookCtx)
         (st st' : Store) (r : completion unit),
    enrichRoute prettifyError nb st = (r, st') ->
    info (st_cell st') = info (st_cell st)
    /\ startLine (st_cell st') = startLine (st_cell st)
    /\ endLine (st_cell st') = endLine (st_cell st)
    /\ (forall k, k <> "route" ->
          prop_of (attrs (st_cell st')) k = prop_of (attrs (st_cell st)) k)
    /\ (forall k, k ∉ "path" :: derived_keys ->
          route_field (st_cell st') k = route_field (st_cell st) k).
Proof.
  intros pe nb st st' r Hrun.
  destruct (enrichRoute_cases pe nb st)
    as [[_ H] | [[_ [e' H]] | (rps & p & Hrps & _ & H)]];
    rewrite H in Hrun; injection Hrun as <- <-; try done.
  split; [done | split; [done | split; [done | split]]].
  - intros k Hk. by eapply prop_of_attrs_set_route.
  - intros k Hk. apply not_elem_of_cons in Hk as [Hpath Hder].
    change (route_field
              (st_cell (set_route_props
                          (derive_props p (default_path (info (st_cell st)) rps)) st)) k
            = route_field (st_cell st) k).
    rewrite (route_field_has_route_props _ _ _ (has_route_props_set st rps _ Hrps)).
    rewrite (route_field_has_route_props _ _ _ Hrps).
    by rewrite derive_props_other, default_path_other.
Qed.

(** X4: a path that is already there is kept: unless the path is falsy
    and the cell has a non-empty info string, the route's [path] after a
    call that returns is the path before it. *)
Theorem enrichRoute_keeps_path :
  forall (prettifyError : ZodError -> string) (nb : NotebookCtx) (st st' : Store),
    enrichRoute prettifyError nb st = (Normal tt, st') ->
    Js.truthy (route_field (st_cell st) "path") = true
    \/ truthy_info (info (st_cell st)) = false ->
    route_field (st_cell st') "path" = route_field (st_cell st) "path".
Proof.
  intros pe nb st st' Hrun Hkeep.
  destruct (enrichRoute_cases pe nb st)
    as [[_ H] | [[_ [e' H]] | (rps & p & Hrps & Hp & H)]];
    rewrite H in Hrun; try done; injection Hrun as <-; try done.
  change (route_field
            (st_cell (set_route_props
                        (derive_props p (default_path (info (st_cell st)) rps)) st)) "path"
          = route_field (st_cell st) "path").
  rewrite (route_field_has_route_props _ _ _ (has_route_props_set st rps _ Hrps)).
  rewrite (route_field_has_route_props _ _ _ Hrps) in *.
  rewrite derive_props_path. unfold default_path.
  destruct Hkeep as [-> | ->]; [done |]. by rewrite andb_false_r.
Qed.

Lemma enrichRoute_keeps_path_witness :
  let st := store_example attrs_report (Some "index.sql") in
  route_field (st_cell (snd (enrichRoute countIssues nb_example st))) "path"
  = route_field (st_cell st) "path".
Proof.
  intros st.
  apply (enrichRoute_keeps_path countIssues nb_example st
           (snd (enrichRoute countIssues nb_example st))).
  - vm_compute. reflexivity.
  - left. reflexivity.
Defined.

(** ** The issue sink *)

Lemma safeParse_failure_nonempty t v err :
  Zod.safeParse t v = ParseFailure err -> issues err <> [].
Proof.
  unfold Zod.safeParse. destruct (Zod.parse t [] v) eqn:E; [done |].
  by intros [= <-].
Qed.

(** X5: the sink is only ever appended to, by at most one issue per call,
    whatever the outcome; that issue carries the notebook's provenance,
    the cell's line span, the message prefix and a non-empty error. *)
Theorem enrichRoute_appends_at_most_one_issue :
  forall (prettifyError : ZodError -> string) (nb : NotebookCtx)
         (st st' : Store) (r : completion unit),
    enrichRoute prettifyError nb st = (r, st') ->
    exists l : list Issue,
      st_issues st' = st_issues st ++ l
      /\ length l <= 1
      /\ Forall (fun i =>
                   issue_provenance i = provenance (notebook nb)
                   /\ issue_startLine i = startLine (st_cell st)
                   /\ issue_endLine i = endLine (st_cell st)
                   /\ message i = "Zod error parsing route: " +:+ prettifyError (error i)
                   /\ issues (error i) <> []) l.
Proof.
  intros pe nb st st' r Hrun.
  destruct (enrichRoute_cases pe nb st)
    as [[_ H] | [[_ [e' H]] | (rps & p & Hrps & _ & H)]];
    rewrite H in Hrun; injection Hrun as <- <-.
  1,2: exists []; rewrite app_nil_r; split; [done | split; [simpl; lia | constructor]].
  eexists. split; [reflexivity |]. unfold issues_for.
  destruct (Zod.safeParse pageRouteSchema _) as [|err] eqn:E; simpl;
    [split; [lia | constructor] |].
  split; [lia |]. constructor; [| done].
  do 4 (split; [done |]). by eapply safeParse_failure_nonempty.
Qed.

Lemma enrichRoute_appends_at_most_one_issue_witness :
  let st := store_example attrs_foo None in
  exists l : list Issue,
    st_issues (snd (enrichRoute countIssues nb_example st)) = st_issues st ++ l
    /\ length l <= 1
    /\ Forall (fun i =>
                 issue_provenance i = "notebook.md"
                 /\ issue_startLine i = 3%Z
                 /\ issue_endLine i = 9%Z
                 /\ message i = "Zod error parsing route: " +:+ countIssues (error i)
                 /\ issues (error i) <> []) l.
Proof.
  intros st.
  apply (enrichRoute_appends_at_most_one_issue countIssues nb_example st
           (snd (enrichRoute countIssues nb_example st))
           (fst (enrichRoute countIssues nb_example st))).
  by destruct (enrichRoute countIssues nb_example st).
Defined.

Lemma enrichRoute_frame_witness :
  let st := store_example attrs_foo (Some "index.sql") in
  let st' := snd (enrichRoute countIssues nb_example st) in
  route_field (st_cell st') "foo" = VNumber (NFinite 1)
  /\ route_field (st_cell st') "caption" = VString "A".
Proof.
  intros st st'.
  destruct (enrichRoute_frame countIssues nb_example st st'
              (fst (enrichRoute countIssues nb_example st)))
    as (_ & _ & _ & _ & H).
  - by destruct (enrichRoute countIssues nb_example st).
  - split.
    + rewrite (H "foo"); [reflexivity |].
      unfold derived_keys. intros Hin.
      repeat (apply elem_of_cons in Hin as [Hin|Hin]; [discriminate |]).
      by apply elem_of_nil in Hin.
    + rewrite (H "caption"); [reflexivity |].
      unfold derived_keys. intros Hin.
      repeat (apply elem_of_cons in Hin as [Hin|Hin]; [discriminate |]).
      by apply elem_of_nil in Hin.
Defined.

(** ** Validation after the enrichment *)

Section ZodFacts.

Lemma filter_unknown_nil shape (ks : list string) :
  filter (fun k => Zod.shape_has shape k = false) ks = []
  <-> Forall (fun k => Zod.shape_has shape k = true) ks.
Proof.
  induction ks as [|k ks IH]; [by split |].
  rewrite filter_cons. case_decide as Hk.
  - split; [done |]. intros [Hk' _]%Forall_cons_1. congruence.
  - rewrite IH. split.
    + intros H. constructor; [| done]. by destruct (Zod.shape_has shape k).
    + by intros [_ ?]%Forall_cons_1.
Qed.

(** What it takes for a plain object to pass a strict object schema:
    every member of the shape parses and every key is in the shape. *)
Lemma parse_strict_object_nil shape path ps :
  Zod.parse (ZObject shape true) path (VObject ps) = []
  <-> Forall (fun kt => Zod.parse (snd kt) (path ++ [PKey (fst kt)])
                          (default VUndefined (Js.assoc_get (fst kt) ps)) = []) shape
      /\ Forall (fun k => Zod.shape_has shape k = true) (map fst ps).
Proof.
  cbn [Zod.parse].
  generalize (filter_unknown_nil shape (map fst ps)).
  generalize (filter (fun k => Zod.shape_has shape k = false) (map fst ps)).
  intros unknown Hunk.
  assert (forall sh, (fix members (sh0 : list (string * ZodType)) : list ZodIssue :=
             match sh0 with
             | [] => []
             | (k, tk) :: r =>
                 Zod.parse tk (path ++ [PKey k]) (default VUndefined (Js.assoc_get k ps))
                 ++ members r
             end) sh = []
          <-> Forall (fun kt => Zod.parse (snd kt) (path ++ [PKey (fst kt)])
                                  (default VUndefined (Js.assoc_get (fst kt) ps)) = []) sh)
    as Hmem.
  { induction sh as [|[k tk] r IH]; [by split |]. split.
    - intros [H1 H2]%app_eq_nil. constructor; [done | by apply IH].
    - intros [H1 H2]%Forall_cons_1. simpl in H1. rewrite H1. by apply IH. }
  split.
  - intros [H1 H2]%app_eq_nil. split; [by apply (Hmem shape) |].
    apply Hunk. by destruct unknown.
  - intros [H1 H2]. apply (Hmem shape) in H1. apply Hunk in H2. by rewrite H1, H2.
Qed.

End ZodFacts.

Lemma concat_imap_strings (f : nat -> value -> list ZodIssue) (l : list string) :
  (forall i s, f i (VString s) = []) -> concat (imap f (map VString l)) = [].
Proof.
  revert f. induction l as [|x l IH]; intros f Hf; [done |].
  simpl. rewrite Hf. simpl. apply IH. intros i s. apply Hf.
Qed.

Lemma keys_assoc_set (P : string -> Prop) k v ps :
  P k -> Forall P (map fst ps) -> Forall P (map fst (Js.assoc_set k v ps)).
Proof.
  intros Hk. induction ps as [|[k' v'] r IH]; simpl.
  - intros _. by constructor.
  - intros [H1 H2]%Forall_cons_1. destruct (String.eqb k k'); simpl.
    + by constructor.
    + constructor; [done | by apply IH].
Qed.

Lemma route_of_object c rps :
  route_of c = VObject rps -> has_route_props c rps.
Proof.
  unfold route_of, prop_of. intros H.
  destruct (Js.own_props (attrs c)) as [aps|] eqn:Ha; [| done].
  simpl in H. destruct (Js.assoc_get "route" aps) as [r|] eqn:Hr; [| done].
  simpl in H. subst r. by exists aps, (VObject rps).
Qed.

(** X6: a route record that passes the schema before the call passes it
    after the call: the enrichment of a valid record returns normally,
    registers no issue and leaves a valid record. *)
Theorem enrichRoute_keeps_valid :
  forall (prettifyError : ZodError -> string) (nb : NotebookCtx) (st : Store),
    Zod.safeParse pageRouteSchema (route_of (st_cell st)) = ParseSuccess ->
    exists st' : Store,
      enrichRoute prettifyError nb st = (Normal tt, st')
      /\ st_issues st' = st_issues st
      /\ Zod.safeParse pageRouteSchema (route_of (st_cell st')) = ParseSuccess.
Proof.
  intros pe nb st Hok.
  assert (Zod.parse pageRouteSchema [] (route_of (st_cell st)) = []) as Hnil.
  { unfold Zod.safeParse in Hok. by destruct (Zod.parse _ _ _). }
  destruct (route_of (st_cell st)) as [| | | | | |rps] eqn:Hro; try done.
  pose proof (route_of_object _ _ Hro) as Hrps.
  apply parse_strict_object_nil in Hnil as [Hmem Hkeys].
  pose proof Hmem as Hmem'.
  repeat (apply Forall_cons_1 in Hmem' as [? Hmem']). cbn [fst snd] in *.
  set (rps1 := default_path (info (st_cell st)) rps).
  assert (exists p, Js.assoc_get "path" rps1 = Some (VString p)) as [p Hp].
  { subst rps1. unfold default_path. destruct (_ && _).
    - rewrite JsFacts.assoc_get_set_eq. by eexists.
    - destruct (Js.assoc_get "path" rps) as [[]|]; try done. by eexists. }
  pose proof (enrichRoute_object pe nb st rps Hrps) as Hrun.
  unfold enrich_outcome in Hrun. fold rps1 in Hrun. rewrite Hp in Hrun.
  change (default VUndefined (Some (VString p))) with (VString p) in Hrun.
  cbv beta iota zeta in Hrun.
  assert (route_of (st_cell (set_route_props (derive_props p rps1) st))
          = VObject (derive_props p rps1)) as Hro'.
  { pose proof (run_read_route_rel st rps (derive_props p rps1) Hrps) as E1.
    rewrite (run_read_route _ (derive_props p rps1)) in E1
      by by eapply has_route_props_set.
    injection E1 as E1.
    transitivity (with_props (route_of (st_cell st)) (derive_props p rps1));
      [exact E1 | by rewrite Hro]. }
  assert (Zod.parse pageRouteSchema [] (VObject (derive_props p rps1)) = []) as Hnil'.
  { apply parse_strict_object_nil. split.
    - pose proof (derive_props_derived p rps1) as HD. unfold derived_keys in HD.
      repeat (apply Forall_cons_1 in HD as [? HD]).
      repeat apply Forall_cons_2; try apply Forall_nil_2; cbn [fst snd].
      all: try (rewrite derive_props_path, Hp; reflexivity).
      all: try match goal with
               | Hd : Js.assoc_get ?k _ = Some (derived_value _ ?k)
                 |- context [Js.assoc_get ?k _] =>
                   rewrite Hd; try reflexivity
               end.
      all: try (rewrite derive_props_other
                  by (unfold derived_keys; intros Hin;
                      repeat (apply elem_of_cons in Hin as [Hin|Hin]; [discriminate |]);
                      by apply elem_of_nil in Hin);
                subst rps1; rewrite default_path_other by done; assumption).
      simpl. apply concat_imap_strings. done.
    - unfold derive_props.
      repeat (apply keys_assoc_set; [reflexivity |]).
      subst rps1. unfold default_path. destruct (_ && _); [| done].
      by apply keys_assoc_set. }
  unfold issues_for, Zod.safeParse in Hrun. rewrite Hro', Hnil', app_nil_r in Hrun.
  eexists. split; [exact Hrun |]. split; [reflexivity |].
  change (Zod.safeParse pageRouteSchema
            (route_of (st_cell (set_route_props (derive_props p rps1) st)))
          = ParseSuccess).
  unfold Zod.safeParse. by rewrite Hro', Hnil'.
Qed.

Lemma enrichRoute_keeps_valid_witness :
  let st := store_example attrs_home (Some "index.sql") in
  exists st' : Store,
    enrichRoute countIssues nb_example st = (Normal tt, st')
    /\ st_issues st' = st_issues st
    /\ Zod.safeParse pageRouteSchema (route_of (st_cell st')) = ParseSuccess.
Proof.
  intros st. apply (enrichRoute_keeps_valid countIssues nb_example st).
  vm_compute. reflexivity.
Defined.

(** * Further properties of [pathExtensions] *)

Section PathExtensionsFacts.
Import Str Path StrFacts PathFacts.

Lemma join_with_cons (s : list ascii) (x : list ascii) (l : list (list ascii)) :
  join_with s (x :: l) = x ++ concat (map (fun y => s ++ y) l).
Proof.
  revert x. induction l as [|y l IH]; intros x.
  - simpl. by rewrite app_nil_r.
  - change (join_with s (x :: y :: l)) with (x ++ s ++ join_with s (y :: l)).
    rewrite IH. simpl. by rewrite <- !app_assoc.
Qed.

(** Splitting and joining again gives the string back. *)
Lemma join_split_on (c : ascii) (cs : list ascii) :
  join_with [c] (split_on c cs) = cs.
Proof.
  induction cs as [|x cs IH]; [done |]. simpl.
  destruct (Ascii.eqb_spec x c) as [->|Hne].
  - pose proof (split_on_nonempty c cs) as Hn.
    destruct (split_on c cs) as [|h t]; [done |].
    change (join_with [c] ([] :: h :: t)) with ([] ++ [c] ++ join_with [c] (h :: t)).
    by rewrite IH.
  - pose proof (split_on_nonempty c cs) as Hn.
    destruct (split_on c cs) as [|h t]; [done |].
    rewrite join_with_cons. rewrite join_with_cons in IH. by rewrite <- IH.
Qed.

Lemma split_on_length (c : ascii) (cs : list ascii) :
  length (split_on c cs) = S (length (filter (fun x => x = c) cs)).
Proof.
  induction cs as [|x cs IH]; [done |]. simpl.
  rewrite filter_cons. destruct (Ascii.eqb_spec x c) as [->|Hne].
  - rewrite decide_True by done. simpl. by rewrite IH.
  - rewrite decide_False by done. rewrite <- IH.
    pose proof (split_on_nonempty c cs). by destruct (split_on c cs).
Qed.

Lemma chars_inj' (s t : string) : chars s = chars t -> s = t.
Proof. intros H. rewrite <- (str_chars s), <- (str_chars t). by rewrite H. Qed.

Lemma str_app (a b : list ascii) : str (a ++ b) = str a +:+ str b.
Proof. induction a as [|x a IH]; simpl; [done | by rewrite IH]. Qed.

Lemma concat_strings_app (l1 l2 : list string) :
  concat_strings (l1 ++ l2) = concat_strings l1 +:+ concat_strings l2.
Proof.
  induction l1 as [|x l1 IH]; [done |]. simpl. rewrite IH.
  apply chars_inj'. by rewrite !chars_app, app_assoc.
Qed.

Lemma concat_strings_dotted (r : list (list ascii)) :
  concat_strings (map (fun e => "." +:+ e) (map str r))
  = str (concat (map (fun y => ["."%char] ++ y) r)).
Proof.
  induction r as [|y r IH]; [done |]. simpl. by rewrite IH, str_app.
Qed.

Lemma removelast_snoc {A} (l : list A) (x : A) : removelast (l ++ [x]) = l.
Proof. by rewrite removelast_app, app_nil_r. Qed.

(** The chain of a basename whose parts after the stem are [r ++ [l]]. *)
Lemma extensions_of_parts (p : string) s0 r l :
  split_on "." (basename_chars (chars p)) = s0 :: r ++ [l] ->
  pe_extensions (pathExtensions p) = map (fun e => "." +:+ e) (map str r) ++ [str l]
  /\ pe_terminal (pathExtensions p) = str l.
Proof.
  intros E.
  assert (pe_extensions (pathExtensions p)
          = map (fun e => "." +:+ e) (map str r) ++ [str l]) as Hx.
  { rewrite pathExtensions_extensions, split_basename, E. simpl.
    rewrite map_app. simpl. unfold dotted_except_last.
    destruct (map str r ++ [str l]) eqn:E'; [by destruct (map str r) |].
    rewrite <- E'. by rewrite removelast_snoc, last_snoc. }
  split; [done |].
  change (pe_terminal (pathExtensions p))
    with (default "" (last (pe_extensions (pathExtensions p)))).
  by rewrite Hx, last_snoc.
Qed.

(** X7: the basename can be put together again from what
    [pathExtensions] returns: the stem, the dotted extensions, and the
    bare last extension once it gets its dot back. *)
Theorem pathExtensions_rebuild :
  forall p : string,
    let x := pathExtensions p in
    let stem := nth 0 (split "." (pe_basename x)) "" in
    pe_basename x
    = stem +:+ concat_strings (removelast (pe_extensions x))
      +:+ match pe_extensions x with
          | [] => ""
          | _ => "." +:+ pe_terminal x
          end.
Proof.
  intros p x stem. subst x stem.
  change (pe_basename (pathExtensions p)) with (basename p).
  rewrite nth_split_basename.
  pose proof (join_split_on "." (basename_chars (chars p))) as Hj.
  pose proof (split_on_nonempty "." (basename_chars (chars p))) as Hn.
  destruct (split_on "." (basename_chars (chars p))) as [|s0 rest] eqn:E; [done |].
  cbn [nth]. unfold basename. rewrite <- Hj, join_with_cons.
  destruct rest as [|y rest'] using rev_ind.
  - assert (pe_extensions (pathExtensions p) = []) as ->.
    { rewrite pathExtensions_extensions, split_basename, E. done. }
    simpl. rewrite app_nil_r. apply chars_inj'. by rewrite !chars_app, !app_nil_r.
  - clear IHrest'.
    destruct (extensions_of_parts p s0 rest' y E) as [-> ->].
    rewrite removelast_snoc, concat_strings_dotted.
    destruct (map _ (map str rest') ++ [str y]) eqn:E'; [by destruct (map _ (map str rest')) |].
    rewrite map_app, concat_app. simpl. rewrite app_nil_r.
    by rewrite !str_app.
Qed.

(** X8: the chain has exactly as many elements as the basename has dots,
    [autoMaterializable()] answers [false] exactly when there are fewer
    than two dots, and neither the stem nor the terminal extension holds
    a dot. *)
Theorem pathExtensions_counts_dots :
  forall p : string,
    let x := pathExtensions p in
    length (pe_extensions x) = count_char "." (pe_basename x)
    /\ (pe_autoMaterializable x tt = AutoFalse <-> count_char "." (pe_basename x) < 2)
    /\ count_char "." (nth 0 (split "." (pe_basename x)) "") = 0
    /\ count_char "." (pe_terminal x) = 0.
Proof.
  intros p x. subst x.
  assert (length (pe_extensions (pathExtensions p)) = count_char "." (basename p)) as Hlen.
  { rewrite extensions_length, split_on_length. unfold count_char, basename.
    rewrite chars_str. simpl. lia. }
  assert (forall s : list ascii, "."%char ∉ s -> count_char "." (str s) = 0) as Hnodot.
  { intros s Hs. unfold count_char. rewrite chars_str.
    induction s as [|c s IH]; [done |].
    apply not_elem_of_cons in Hs as [Hc Hs]. rewrite filter_cons.
    rewrite decide_False by done. by apply IH. }
  pose proof (split_on_no_sep "." (basename_chars (chars p))) as Hall.
  pose proof (split_on_nonempty "." (basename_chars (chars p))) as Hn.
  change (pe_basename (pathExtensions p)) with (basename p).
  split; [done | split; [| split]].
  - rewrite <- Hlen. split.
    + intros H. destruct (Nat.lt_ge_cases (length (pe_extensions (pathExtensions p))) 2);
        [done |]. by rewrite auto_path in H.
    + apply auto_false.
  - rewrite nth_split_basename. apply Hnodot.
    destruct (split_on "." (basename_chars (chars p))) as [|s0 rest]; [done |].
    by apply Forall_cons_1 in Hall as [? _].
  - destruct (split_on "." (basename_chars (chars p))) as [|s0 rest] eqn:E; [done |].
    destruct rest as [|y rest' _] using rev_ind.
    + assert (pe_terminal (pathExtensions p) = "") as ->; [| done].
      change (pe_terminal (pathExtensions p))
        with (default "" (last (pe_extensions (pathExtensions p)))).
      by rewrite pathExtensions_extensions, split_basename, E.
    + destruct (extensions_of_parts p s0 rest' y E) as [_ ->].
      apply Hnodot. apply Forall_cons_1 in Hall as [_ Hall].
      by apply Forall_app in Hall as [_ [? _]%Forall_cons_1].
Qed.

Lemma chars_basename (p : string) : chars (basename p) = basename_chars (chars p).
Proof. unfold basename. apply chars_str. Qed.

(** X9: a hidden file has an empty stem: when the basename begins with a
    dot, the part before the first dot is the empty string and the name
    itself counts as extensions; with no further dot (as in
    [.gitignore]) the whole name is the one, terminal, extension and
    there is no auto-materialized path. *)
Theorem hidden_file_has_empty_stem :
  forall p s : string,
    Path.basename p = String "." s ->
    let x := pathExtensions p in
    nth 0 (split "." (pe_basename x)) "" = ""
    /\ pe_extensions x <> []
    /\ (count_char "." s = 0 ->
        pe_extensions x = [s] /\ pe_terminal x = s
        /\ pe_autoMaterializable x tt = AutoFalse).
Proof.
  intros p s Hb x. subst x.
  change (pe_basename (pathExtensions p)) with (basename p).
  assert (split_on "." (basename_chars (chars p)) = [] :: split_on "." (chars s)) as E.
  { rewrite <- chars_basename, Hb. simpl. done. }
  split; [| split].
  - by rewrite nth_split_basename, E.
  - intros Hnil. pose proof (extensions_length p) as Hl. rewrite Hnil, E in Hl.
    pose proof (split_on_nonempty "." (chars s)).
    destruct (split_on "." (chars s)); [done | simpl in Hl; lia].
  - intros Hc.
    assert ("."%char ∉ chars s) as Hno.
    { unfold count_char in Hc. intros Hin.
      assert ("."%char ∈ filter (fun x => x = "."%char) (chars s)) as Hf
        by (by apply list_elem_of_filter).
      destruct (filter _ (chars s)); [by apply elem_of_nil in Hf | done]. }
    rewrite (split_on_no_sep_id _ _ Hno) in E.
    destruct (extensions_of_parts p [] [] (chars s) E) as [Hx Ht].
    rewrite str_chars in Hx, Ht.
    split; [exact Hx | split; [exact Ht |]].
    apply auto_false. rewrite Hx. simpl. lia.
Qed.

Lemma hidden_file_has_empty_stem_witness :
  let x := pathExtensions "/repo/.gitignore" in
  nth 0 (split "." (pe_basename x)) "" = ""
  /\ pe_extensions x = ["gitignore"]
  /\ pe_terminal x = "gitignore".
Proof.
  intros x.
  destruct (hidden_file_has_empty_stem "/repo/.gitignore" "gitignore") as (H1 & _ & H2).
  - vm_compute. reflexivity.
  - destruct H2 as (H2 & H3 & _); [vm_compute; reflexivity |].
    split; [exact H1 | split; [exact H2 | exact H3]].
Defined.

(** The basename of the auto-materialized path. *)
Lemma auto_basename (p : string) :
  2 <= length (pe_extensions (pathExtensions p)) ->
  let parts := split "." (basename p) in
  let stem := nth 0 parts "" in
  let mid := nth (length parts - 2) parts "" in
  basename (Path.join [dirname p; stem +:+ ".auto." +:+ mid])
  = stem +:+ ".auto." +:+ mid
  /\ ("."%char ∉ chars stem) /\ ("."%char ∉ chars mid).
Proof.
  intros H parts stem mid.
  pose proof H as Hlen. rewrite extensions_length in Hlen.
  assert (("."%char ∉ chars stem) /\ (sep ∉ chars stem)) as [Hsd Hss].
  { subst stem parts. rewrite nth_split_basename, chars_str. apply parts_clean; lia. }
  assert (("."%char ∉ chars mid) /\ (sep ∉ chars mid)) as [Hmd Hms].
  { subst mid parts. rewrite nth_split_basename, chars_str.
    rewrite split_basename, length_map. apply parts_clean; lia. }
  split; [| done].
  destruct (auto_name_good stem mid Hss Hms) as (Hgood & Hnd & Hndd).
  destruct (dirname_chars_shape (chars p)) as [Hd1 Hd2].
  destruct (normalize_dir_name _ _ Hd1 Hd2 Hgood Hnd Hndd) as [_ Hbase].
  unfold basename at 1, Path.join. rewrite chars_str. simpl map.
  unfold dirname at 1. rewrite chars_str.
  rewrite join_chars_two by (done || apply Hgood).
  rewrite Hbase. apply str_chars.
Qed.

(** X10: the auto-materialized path has itself two extensions: its chain
    is [".auto"] followed by the intermediate extension of the input,
    bare, and that intermediate extension is its terminal extension; its
    stem is the stem of the input. *)
Theorem auto_path_extensions :
  forall p a : string,
    pe_autoMaterializable (pathExtensions p) tt = AutoPathOf a ->
    let parts := split "." (basename p) in
    let mid := nth (length parts - 2) parts "" in
    pe_extensions (pathExtensions a) = [".auto"; mid]
    /\ pe_terminal (pathExtensions a) = mid
    /\ nth 0 (split "." (pe_basename (pathExtensions a))) "" = nth 0 parts "".
Proof.
  intros p a Ha parts mid.
  assert (2 <= length (pe_extensions (pathExtensions p))) as Hlen.
  { destruct (Nat.lt_ge_cases (length (pe_extensions (pathExtensions p))) 2) as [Hlt|]; [| done].
    by rewrite (auto_false p Hlt) in Ha. }
  rewrite (auto_path p Hlen) in Ha. injection Ha as <-.
  destruct (auto_basename p Hlen) as (Hb & Hsd & Hmd).
  fold parts in Hb, Hsd, Hmd |- *. fold mid in Hb, Hmd |- *.
  set (stem := nth 0 parts "") in *.
  set (a := Path.join [dirname p; stem +:+ ".auto." +:+ mid]) in *.
  assert (split_on "." (basename_chars (chars a))
          = chars stem :: [chars "auto"] ++ [chars mid]) as E.
  { rewrite <- chars_basename, Hb, auto_name_chars.
    rewrite split_on_app_sep by done.
    change (chars "auto." ++ chars mid) with (chars "auto" ++ "."%char :: chars mid).
    rewrite split_on_app_sep.
    - by rewrite split_on_no_sep_id.
    - simpl. intros Hin.
      repeat (apply elem_of_cons in Hin as [Hin|Hin]; [done |]).
      by apply elem_of_nil in Hin. }
  destruct (extensions_of_parts a _ _ _ E) as [Hx Ht].
  rewrite str_chars in Hx, Ht.
  split; [exact Hx | split; [exact Ht |]].
  change (pe_basename (pathExtensions a)) with (basename a).
  rewrite nth_split_basename, E. cbn [nth]. apply str_chars.
Qed.

Lemma auto_path_extensions_witness :
  pe_extensions (pathExtensions "/docs/report.auto.sql") = [".auto"; "sql"]
  /\ pe_terminal (pathExtensions "/docs/report.auto.sql") = "sql".
Proof.
  destruct (auto_path_extensions "/docs/report.sql.ts" "/docs/report.auto.sql")
    as (H1 & H2 & _).
  - vm_compute. reflexivity.
  - split; [exact H1 | exact H2].
Defined.

End PathExtensionsFacts.

(** * Further properties of the capability check and the breadcrumbs *)

(** X11: the capability check accepts exactly the objects and arrays
    that have a [route] member whose [typeof] is ["object"] (an object,
    an array or [null]); [undefined], [null], booleans, numbers and
    strings are never route suppliers, whatever they hold. *)
Theorem isRouteSupplier_accepts :
  forall o : value,
    isRouteSupplier o = true
    <-> exists aps r,
          Js.own_props o = Some aps
          /\ Js.assoc_get "route" aps = Some r
          /\ Js.typeof r = "object".
Proof.
  intros o. rewrite isRouteSupplier_true. split.
  - intros (aps & r & Ha & Hr & Hobj). exists aps, r.
    split; [done | split; [done |]].
    destruct Hobj as [-> | [rps Hp]]; [done | by destruct r].
  - intros (aps & r & Ha & Hr & Ht). exists aps, r.
    split; [done | split; [done |]]. destruct r; simpl in Ht; try done; eauto.
Qed.

Section CrumbsFacts.

Variable nav : Navigation.

Lemma add_payloads_dom (ps : list PageRoute) (c : gmap string (list PageRoute)) :
  dom (add_payloads nav c ps) = dom c ∪ list_to_set (map path ps).
Proof.
  induction ps as [|p ps IH] using rev_ind.
  - unfold add_payloads. simpl. by rewrite (right_id_L ∅ (∪)).
  - rewrite add_payloads_snoc, dom_insert_L, IH, map_app. simpl.
    rewrite list_to_set_snoc_L. apply set_eq. intros x.
    rewrite !elem_of_union. tauto.
Qed.

Lemma add_payloads_size (ps : list PageRoute) :
  size (add_payloads nav ∅ ps) <= length ps.
Proof.
  induction ps as [|p ps IH] using rev_ind.
  { unfold add_payloads. simpl. by rewrite map_size_empty. }
  rewrite add_payloads_snoc, length_app. simpl.
  rewrite map_size_insert. destruct (_ !! _); simpl; unfold id; lia.
Qed.

Lemma add_payloads_size_NoDup (ps : list PageRoute) :
  NoDup (map path ps) -> size (add_payloads nav ∅ ps) = length ps.
Proof.
  induction ps as [|p ps IH] using rev_ind.
  { intros _. unfold add_payloads. simpl. by rewrite map_size_empty. }
  rewrite map_app. simpl. intros Hnd.
  apply NoDup_app in Hnd as (Hnd & Hdisj & _).
  rewrite add_payloads_snoc, length_app. simpl.
  rewrite map_size_insert_None; [rewrite IH by done; lia |].
  rewrite add_payloads_lookup_other; [apply lookup_empty |].
  intros q Hq E. apply (Hdisj (path q)).
  - apply (proj2 (list_elem_of_fmap _ _ _)). eauto.
  - rewrite E. left.
Qed.

(** X12: the keys of the composed map are exactly the paths of the
    payloads held by the nodes: a node without payloads adds no entry, the
    map never has more entries than there are payloads, and it has as
    many when no two payloads share a path. *)
Theorem compose_crumbs_keys :
  forall forest : Forest,
    let ps := payloads_of (forest_nodes forest) in
    dom (compose_crumbs forest nav) = list_to_set (map path ps)
    /\ size (compose_crumbs forest nav) <= length ps
    /\ (NoDup (map path ps) -> size (compose_crumbs forest nav) = length ps).
Proof.
  intros forest ps.
  assert (compose_crumbs forest nav = add_payloads nav ∅ ps) as ->.
  { unfold compose_crumbs. apply add_nodes_payloads. }
  split; [| split].
  - by rewrite add_payloads_dom, dom_empty_L, (left_id_L ∅ (∪)).
  - apply add_payloads_size.
  - apply add_payloads_size_NoDup.
Qed.

(** X13: when several payloads share a path the later one overwrites the
    earlier: the entry under a path is the ancestor chain of the last
    payload with that path in iteration order. *)
Theorem compose_crumbs_last_wins :
  forall (forest : Forest) (before after : list PageRoute) (p : PageRoute),
    payloads_of (forest_nodes forest) = before ++ p :: after ->
    (forall q, q ∈ after -> path q <> path p) ->
    compose_crumbs forest nav !! path p = Some (ancestors nav p).
Proof.
  intros forest before after p Hps Hlast.
  unfold compose_crumbs. fold (forest_nodes forest).
  rewrite add_nodes_payloads, Hps.
  change (before ++ p :: after) with (before ++ [p] ++ after).
  rewrite app_assoc, add_payloads_app, add_payloads_lookup_other by done.
  by rewrite add_payloads_snoc, lookup_insert_eq.
Qed.

End CrumbsFacts.

Lemma isRouteSupplier_accepts_witness :
  isRouteSupplier (VArray [] [("route", VArray [] [])]) = true.
Proof.
  apply (proj2 (isRouteSupplier_accepts (VArray [] [("route", VArray [] [])]))).
  exists [("route", VArray [] [])], (VArray [] []). repeat split; reflexivity.
Defined.

(** A forest in which two payloads share the path [docs]. *)
Lemma compose_crumbs_last_wins_witness :
  let first := route_example "docs" "First" in
  let second := route_example "docs" "Second" in
  let forest :=
    {| roots := [];
       treeByPath := [("docs", {| node_path := "docs";
                                  payloads := Some [first; second] |})] |} in
  let nav := {| ancestors := fun p => [p] |} in
  compose_crumbs forest nav !! "docs" = Some [second].
Proof.
  intros first second forest nav.
  apply (compose_crumbs_last_wins nav forest [first] [] second).
  - reflexivity.
  - intros q Hq. by apply elem_of_nil in Hq.
Defined.

Lemma compose_crumbs_keys_witness :
  size (compose_crumbs forest_example nav_example) = 2.
Proof.
  destruct (compose_crumbs_keys nav_example forest_example) as (_ & _ & H).
  apply H. simpl. repeat constructor.
  - intros Hin. apply list_elem_of_singleton in Hin. discriminate.
  - apply not_elem_of_nil.
Defined.

(** * The language registry *)

Module CodeFacts.
Import Code.

Section MapFacts.
Context {V : Type}.
Implicit Types (m : list (string * V)) (k : string) (v : V).

Lemma map_get_set_eq k v m : map_get k (map_set k v m) = Some v.
Proof.
  induction m as [|[k' v'] r IH]; simpl.
  - by rewrite String.eqb_refl.
  - destruct (String.eqb k k') eqn:E; simpl; rewrite ?String.eqb_refl, ?E; done.
Qed.

Lemma map_get_set_ne k k' v m : k <> k' -> map_get k (map_set k' v m) = map_get k m.
Proof.
  intros Hne. induction m as [|[k2 v2] r IH]; simpl.
  - by apply String.eqb_neq in Hne as ->.
  - destruct (String.eqb_spec k' k2) as [->|Hk]; simpl.
    + by apply String.eqb_neq in Hne as ->.
    + by rewrite IH.
Qed.

Lemma map_set_id k v m : map_get k m = Some v -> map_set k v m = m.
Proof.
  induction m as [|[k' v'] r IH]; simpl; [done |].
  destruct (String.eqb_spec k k') as [->|Hk].
  - by intros [= ->].
  - intros H. by rewrite IH.
Qed.

(** Setting a list of keys, one after the other, to the same value *)
Lemma fold_set_in (ks : list string) k v m :
  k ∈ ks -> map_get k (fold_left (fun m' a => map_set a v m') ks m) = Some v.
Proof.
  revert m. induction ks as [|a ks IH] using rev_ind; intros m Hin.
  - by apply elem_of_nil in Hin.
  - rewrite fold_left_app. simpl. destruct (decide (k = a)) as [->|Hne].
    + apply map_get_set_eq.
    + rewrite map_get_set_ne by done. apply IH.
      apply elem_of_app in Hin as [?|Hin]; [done |].
      by apply list_elem_of_singleton in Hin.
Qed.

Lemma fold_set_notin (ks : list string) k v m :
  k ∉ ks -> map_get k (fold_left (fun m' a => map_set a v m') ks m) = map_get k m.
Proof.
  revert m. induction ks as [|a ks IH]; intros m Hin; [done |].
  apply not_elem_of_cons in Hin as [Hne Hin]. simpl.
  by rewrite IH, map_get_set_ne.
Qed.

Lemma fold_set_id (ks : list string) v m :
  (forall k, k ∈ ks -> map_get k m = Some v) ->
  fold_left (fun m' a => map_set a v m') ks m = m.
Proof.
  induction ks as [|a ks IH]; intros H; [done |]. simpl.
  rewrite (map_set_id a v m) by (apply H; left). apply IH.
  intros k Hk. apply H. by right.
Qed.

End MapFacts.

Lemma fold_set_map {V} (f : string -> string) (l : list string) (v : V) m :
  fold_left (fun m' e => map_set (f e) v m') l m
  = fold_left (fun m' a => map_set a v m') (map f l) m.
Proof. revert m. induction l as [|x l IH]; intros m; simpl; [done | apply IH]. Qed.

Lemma registry_of_register toLowerCase spec st :
  languageRegistry (registerLanguage toLowerCase spec st)
  = fold_left (fun m alias => map_set alias spec m) (default [] (aliases spec))
      (map_set (id spec) spec (languageRegistry st)).
Proof. reflexivity. Qed.

Lemma index_of_register toLowerCase spec st :
  languageExtnIndex (registerLanguage toLowerCase spec st)
  = fold_left (fun m ext => map_set (toLowerCase ext) spec m)
      (default [] (extensions spec)) (languageExtnIndex st).
Proof. reflexivity. Qed.

Lemma registries_eq (a b : Registries) :
  languageRegistry a = languageRegistry b ->
  languageExtnIndex a = languageExtnIndex b ->
  a = b.
Proof. destruct a, b. simpl. by intros -> ->. Qed.

End CodeFacts.

(** ** Registering and looking up *)

Lemma registerLanguage_lookup_lemma (toLowerCase : string -> string)
    (spec : Code.LanguageSpec) (st : Code.Registries) :
  let st' := Code.registerLanguage toLowerCase spec st in
  Code.getLanguageByIdOrAlias (Code.id spec) st' = Some spec
  /\ (forall a, a ∈ default [] (Code.aliases spec) ->
        Code.getLanguageByIdOrAlias a st' = Some spec)
  /\ (forall k, k <> Code.id spec -> k ∉ default [] (Code.aliases spec) ->
        Code.getLanguageByIdOrAlias k st' = Code.getLanguageByIdOrAlias k st).
Proof.
  intros st'. subst st'.
  unfold Code.getLanguageByIdOrAlias, Code.registerLanguage. simpl.
  split; [| split].
  - destruct (decide (Code.id spec ∈ default [] (Code.aliases spec))) as [Hin|Hout].
    + by apply CodeFacts.fold_set_in.
    + rewrite CodeFacts.fold_set_notin by done. apply CodeFacts.map_get_set_eq.
  - intros a Ha. by apply CodeFacts.fold_set_in.
  - intros k Hk Hout. rewrite CodeFacts.fold_set_notin by done.
    by apply CodeFacts.map_get_set_ne.
Qed.

(** X14: after [registerLanguage(spec)] the language is found under its
    id and under each of its aliases, and every other name resolves as
    it did before. *)
Theorem registerLanguage_lookup :
  forall (toLowerCase : string -> string) (spec : Code.LanguageSpec)
         (st : Code.Registries),
    let st' := Code.registerLanguage toLowerCase spec st in
    Code.getLanguageByIdOrAlias (Code.id spec) st' = Some spec
    /\ (forall a, a ∈ default [] (Code.aliases spec) ->
          Code.getLanguageByIdOrAlias a st' = Some spec)
    /\ (forall k, k <> Code.id spec -> k ∉ default [] (Code.aliases spec) ->
          Code.getLanguageByIdOrAlias k st' = Code.getLanguageByIdOrAlias k st).
Proof. intros tl spec st. apply registerLanguage_lookup_lemma. Qed.

(** X15: after [registerLanguage(spec)] a path is detected as that
    language whenever its extension has the lower-case form of one of
    the registered extensions, provided that form is not empty; a path
    whose extension matches none of them is detected as before. *)
Theorem registerLanguage_detects_extension :
  forall (toLowerCase extname : string -> string) (spec : Code.LanguageSpec)
         (st : Code.Registries) (p : string),
    let st' := Code.registerLanguage toLowerCase spec st in
    (forall ext,
        ext ∈ default [] (Code.extensions spec) ->
        toLowerCase (extname p) = toLowerCase ext ->
        toLowerCase ext <> "" ->
        Code.detectLanguageByPath toLowerCase extname p st' = Some spec)
    /\ ((forall ext, ext ∈ default [] (Code.extensions spec) ->
                     toLowerCase ext <> toLowerCase (extname p)) ->
        Code.detectLanguageByPath toLowerCase extname p st'
        = Code.detectLanguageByPath toLowerCase extname p st).
Proof.
  intros tl en spec st p st'. subst st'.
  unfold Code.detectLanguageByPath, Code.registerLanguage. simpl.
  rewrite CodeFacts.fold_set_map. split.
  - intros ext Hin Heq Hne. rewrite Heq.
    apply String.eqb_neq in Hne as ->.
    apply CodeFacts.fold_set_in.
    apply (proj2 (list_elem_of_fmap _ _ _)). eauto.
  - intros Hnone. destruct (String.eqb (tl (en p)) ""); [done |].
    apply CodeFacts.fold_set_notin.
    intros (ext & E & Hin)%list_elem_of_fmap. by apply (Hnone ext).
Qed.

(** X16: registering the same language twice in a row is the same as
    registering it once: both maps, with the order of their keys, are
    unchanged by the second call. *)
Theorem registerLanguage_idempotent :
  forall (toLowerCase : string -> string) (spec : Code.LanguageSpec)
         (st : Code.Registries),
    Code.registerLanguage toLowerCase spec (Code.registerLanguage toLowerCase spec st)
    = Code.registerLanguage toLowerCase spec st.
Proof.
  intros tl spec st.
  destruct (registerLanguage_lookup_lemma tl spec st) as (Hid & Hal & _).
  set (st1 := Code.registerLanguage tl spec st) in *.
  apply CodeFacts.registries_eq.
  - rewrite (CodeFacts.registry_of_register tl spec st1).
    rewrite (CodeFacts.map_set_id _ _ _ Hid). by apply CodeFacts.fold_set_id.
  - rewrite (CodeFacts.index_of_register tl spec st1).
    rewrite CodeFacts.fold_set_map. apply CodeFacts.fold_set_id.
    intros k Hk. subst st1. rewrite CodeFacts.index_of_register.
    rewrite CodeFacts.fold_set_map. by apply CodeFacts.fold_set_in.
Qed.

(** ** Shebang detection *)

Lemma find_first {A} (f : A -> bool) (l : list A) (x : A) :
  List.find f l = Some x ->
  exists before after,
    l = before ++ x :: after /\ f x = true /\ Forall (fun y => f y = false) before.
Proof.
  induction l as [|y l IH]; simpl; [done |].
  destruct (f y) eqn:E.
  - intros [= ->]. exists [], l. by repeat split.
  - intros (before & after & -> & Hx & Hb)%IH.
    exists (y :: before), after. repeat split; [done |]. by constructor.
Qed.

Lemma find_none_iff {A} (f : A -> bool) (l : list A) :
  List.find f l = None <-> Forall (fun y => f y = false) l.
Proof.
  induction l as [|y l IH]; simpl; [by split |].
  destruct (f y) eqn:E.
  - split; [done |]. intros [H _]%Forall_cons_1. congruence.
  - rewrite IH. split; [by constructor | by intros [_ ?]%Forall_cons_1].
Qed.

(** X17: [detectLanguageByShebang] answers nothing for a line that does
    not start with [#!]; otherwise it answers the first language, in the
    order of the registry's entries, one of whose shebangs occurs in the
    trimmed rest of the line, and nothing when there is none. *)
Theorem detectLanguageByShebang_first_match :
  forall (trim : string -> string) (firstLine : string) (st : Code.Registries),
    let rest := trim (Code.slice_from 2 firstLine) in
    let hit := fun spec : Code.LanguageSpec =>
                 existsb (fun s => Code.includes rest s)
                         (default [] (Code.shebangs spec)) in
    (Code.startsWith firstLine "#!" = false ->
       Code.detectLanguageByShebang trim firstLine st = None)
    /\ (forall spec,
          Code.detectLanguageByShebang trim firstLine st = Some spec ->
          Code.startsWith firstLine "#!" = true
          /\ exists before after,
               Code.map_values (Code.languageRegistry st) = before ++ spec :: after
               /\ hit spec = true
               /\ Forall (fun other => hit other = false) before)
    /\ (Code.startsWith firstLine "#!" = true ->
        (Code.detectLanguageByShebang trim firstLine st = None
         <-> Forall (fun other => hit other = false)
                    (Code.map_values (Code.languageRegistry st)))).
Proof.
  intros trim firstLine st rest hit. unfold Code.detectLanguageByShebang.
  split; [| split].
  - by intros ->.
  - intros spec. destruct (Code.startsWith firstLine "#!"); [| done]. simpl.
    intros H. split; [done |]. by apply find_first in H.
  - intros ->. simpl. apply find_none_iff.
Qed.

Lemma detectLanguageByShebang_first_match_witness :
  Code.detectLanguageByShebang ascii_trim "/usr/bin/env node"
    (Code.preloaded ascii_toLowerCase) = None.
Proof.
  apply (proj1 (detectLanguageByShebang_first_match ascii_trim "/usr/bin/env node"
                  (Code.preloaded ascii_toLowerCase))).
  reflexivity.
Defined.

Lemma registerLanguage_lookup_witness :
  let spec := {| Code.id := "zig"; Code.aliases := Some ["zg"];
                 Code.extensions := Some [".zig"]; Code.shebangs := None;
                 Code.mime := None; Code.comment := Code.c_style |} in
  let st' := Code.registerLanguage ascii_toLowerCase spec
               (Code.preloaded ascii_toLowerCase) in
  Code.getLanguageByIdOrAlias "zg" st' = Some spec
  /\ Code.getLanguageByIdOrAlias "ts" st'
     = Code.getLanguageByIdOrAlias "ts" (Code.preloaded ascii_toLowerCase).
Proof.
  intros spec st'.
  destruct (registerLanguage_lookup ascii_toLowerCase spec
              (Code.preloaded ascii_toLowerCase)) as (_ & H1 & H2).
  split.
  - apply H1. left.
  - apply H2; [discriminate |]. simpl. intros Hin.
    apply list_elem_of_singleton in Hin. discriminate.
Defined.

Lemma registerLanguage_detects_extension_witness :
  let spec := {| Code.id := "zig"; Code.aliases := None;
                 Code.extensions := Some [".Zig"]; Code.shebangs := None;
                 Code.mime := None; Code.comment := Code.c_style |} in
  Code.detectLanguageByPath ascii_toLowerCase posix_extname "src/main.ZIG"
    (Code.registerLanguage ascii_toLowerCase spec Code.empty_registries)
  = Some spec.
Proof.
  intros spec.
  apply (proj1 (registerLanguage_detects_extension ascii_toLowerCase posix_extname
                  spec Code.empty_registries "src/main.ZIG") ".Zig").
  - left.
  - reflexivity.
  - discriminate.
Defined.

(** ** The preloaded registry *)

Section PreloadedFacts.
Import Code.

Lemma map_get_Some_In {V} (k : string) (v : V) (m : list (string * V)) :
  map_get k m = Some v -> In (k, v) m.
Proof.
  induction m as [|[k' v'] r IH]; simpl; [done |].
  destruct (String.eqb_spec k k') as [->|_].
  - intros [= ->]. by left.
  - intros H. right. by apply IH.
Qed.

(** The registry of names does not depend on how extensions are
    lower-cased. *)
Lemma preloaded_registry (toLowerCase : string -> string) :
  languageRegistry (preloaded toLowerCase)
  = languageRegistry (preloaded (fun s => s)).
Proof.
  unfold preloaded, preloadLanguages.
  assert (forall specs a b,
             languageRegistry a = languageRegistry b ->
             languageRegistry
               (fold_left (fun s spec => registerLanguage toLowerCase spec s) specs a)
             = languageRegistry
                 (fold_left (fun s spec => registerLanguage (fun s => s) spec s) specs b))
    as H.
  { induction specs as [|spec specs IH]; intros a b Hab; [done |].
    simpl. apply IH. rewrite !CodeFacts.registry_of_register. by rewrite Hab. }
  by apply H.
Qed.

End PreloadedFacts.

(** X18: in the preloaded registry a name resolves to a language exactly
    when it is the id or an alias of that language in the table: no id or
    alias of one language is taken over by another. *)
Theorem preloaded_names :
  forall (toLowerCase : string -> string) (k : string) (spec : Code.LanguageSpec),
    Code.getLanguageByIdOrAlias k (Code.preloaded toLowerCase) = Some spec
    <-> In spec Code.preloaded_specs
        /\ (k = Code.id spec \/ In k (default [] (Code.aliases spec))).
Proof.
  intros tl k spec. unfold Code.getLanguageByIdOrAlias.
  rewrite preloaded_registry. split.
  - intros H%map_get_Some_In. vm_compute in H.
    repeat (destruct H as [H|H];
            [injection H as <- <-; split;
             [ simpl; repeat first [left; reflexivity | right]
             | simpl; repeat first [left; reflexivity | right] ] |]).
    done.
  - intros [Hin Hk]. unfold Code.preloaded_specs in Hin. simpl in Hin.
    repeat (destruct Hin as [<-|Hin];
            [simpl in Hk;
             repeat (destruct Hk as [Hk|Hk]; [subst k; by vm_compute |]); done |]).
    done.
Qed.

Section PreloadedExtensions.
Import Code.

Lemma registerLanguage_ext (f g : string -> string) spec st :
  Forall (fun e => f e = g e) (default [] (extensions spec)) ->
  registerLanguage f spec st = registerLanguage g spec st.
Proof.
  intros H. unfold registerLanguage. f_equal.
  generalize (languageExtnIndex st).
  induction (default [] (extensions spec)) as [|e l IH]; intros m; [done |].
  apply Forall_cons_1 in H as [He Hl]. simpl. rewrite He. by apply IH.
Qed.

Lemma fold_register_ext (f g : string -> string) specs st :
  Forall (fun e => f e = g e)
         (flat_map (fun spec => default [] (extensions spec)) specs) ->
  fold_left (fun s spec => registerLanguage f spec s) specs st
  = fold_left (fun s spec => registerLanguage g spec s) specs st.
Proof.
  revert st. induction specs as [|spec specs IH]; intros st H; [done |].
  simpl in H. apply Forall_app in H as [H1 H2]. simpl.
  rewrite (registerLanguage_ext f g spec st H1). by apply IH.
Qed.

End PreloadedExtensions.

(** X19: every extension of the preloaded table leads to its own
    language: for a lower-casing that agrees with ASCII lower-casing on
    the table's extensions, a path whose lower-cased extension is the
    lower-case form of an extension listed for a language is detected as
    that language; no extension is claimed by two languages, and [.R]
    and [.r] both lead to r. *)
Theorem preloaded_extensions_detect :
  forall (toLowerCase extname : string -> string),
    Forall (fun e => toLowerCase e = ascii_toLowerCase e) Code.preloaded_extensions ->
    forall (spec : Code.LanguageSpec) (ext p : string),
      In spec Code.preloaded_specs ->
      In ext (default [] (Code.extensions spec)) ->
      toLowerCase (extname p) = ascii_toLowerCase ext ->
      Code.detectLanguageByPath toLowerCase extname p (Code.preloaded toLowerCase)
      = Some spec.
Proof.
  intros tl en Hlow spec ext p Hspec Hext Hp.
  unfold Code.detectLanguageByPath. rewrite Hp.
  unfold Code.preloaded, Code.preloadLanguages.
  rewrite (fold_register_ext tl ascii_toLowerCase _ _ Hlow).
  unfold Code.preloaded_specs in Hspec. simpl in Hspec.
  repeat (destruct Hspec as [<-|Hspec];
          [simpl in Hext;
           repeat (destruct Hext as [<-|Hext]; [by vm_compute |]); done |]).
  done.
Qed.

Lemma preloaded_extensions_detect_witness :
  option_map Code.id
    (Code.detectLanguageByPath ascii_toLowerCase posix_extname "stats/Model.R"
       (Code.preloaded ascii_toLowerCase))
  = Some "r".
Proof.
  rewrite (preloaded_extensions_detect ascii_toLowerCase posix_extname
             ltac:(repeat constructor)
             (nth 19 Code.preloaded_specs (nth 0 Code.preloaded_specs
                                             {| Code.id := ""; Code.aliases := None;
                                                Code.extensions := None;
                                                Code.shebangs := None;
                                                Code.mime := None;
                                                Code.comment := Code.c_style |}))
             ".R" "stats/Model.R").
  - reflexivity.
  - simpl. repeat first [left; reflexivity | right].
  - simpl. right. left. reflexivity.
  - reflexivity.
Defined.

Section IncludesFacts.
Import Code.

Lemma prefix_spec (t s : string) :
  String.prefix t s = true <-> exists b, s = t +:+ b.
Proof.
  revert s. induction t as [|c t IH]; intros s.
  - split; [by exists s | by destruct s].
  - destruct s as [|d s]; simpl; [split; [done | by intros [b ?]] |].
    destruct (ascii_dec c d) as [->|Hne].
    + rewrite IH. split; intros [b Hb]; exists b; [by rewrite Hb | by injection Hb].
    + split; [done |]. intros [b Hb]. injection Hb as -> _. done.
Qed.

Lemma append_assoc' (a b c : string) : (a +:+ b) +:+ c = a +:+ (b +:+ c).
Proof. apply chars_inj'. by rewrite !StrFacts.chars_app, app_assoc. Qed.

(** [includes] is the substring test. *)
Lemma includes_spec (s t : string) :
  includes s t = true <-> exists a b, s = a +:+ t +:+ b.
Proof.
  induction s as [|c s IH].
  - destruct t as [|d t]; simpl.
    + split; [by exists "", "" | done].
    + split; [done |]. intros (a & b & H). by destruct a.
  - cbn [includes]. rewrite orb_true_iff, prefix_spec, IH. split.
    + intros [[b Hb] | (a & b & Hab)].
      * by exists "", b.
      * exists (String c a), b. simpl. by rewrite Hab.
    + intros (a & b & Hab). destruct a as [|d a].
      * left. by exists b.
      * right. injection Hab as -> ->. by exists a, b.
Qed.

Lemma includes_trans (s u t : string) :
  includes s u = true -> includes u t = true -> includes s t = true.
Proof.
  rewrite !includes_spec. intros (a & b & ->) (c & d & ->).
  exists (a +:+ c), (d +:+ b). by rewrite !append_assoc'.
Qed.

End IncludesFacts.

(** X20: on the preloaded registry only three languages answer to a
    shebang, in this order of precedence: a [#!] line whose trimmed rest
    contains [node] or [deno] is typescript; otherwise one that contains
    [python] is python; otherwise one that contains [sh] anywhere (so
    [bash] and [zsh], but also [fish]) is shell; any other line gives
    nothing. *)
Theorem preloaded_shebangs :
  forall (toLowerCase trim : string -> string) (firstLine : string),
    Code.startsWith firstLine "#!" = true ->
    let rest := trim (Code.slice_from 2 firstLine) in
    option_map Code.id
      (Code.detectLanguageByShebang trim firstLine (Code.preloaded toLowerCase))
    = if Code.includes rest "node" || Code.includes rest "deno" then Some "typescript"
      else if Code.includes rest "python" then Some "python"
      else if Code.includes rest "sh" then Some "shell"
      else None.
Proof.
  intros tl trim firstLine Hstart rest.
  unfold Code.detectLanguageByShebang. rewrite Hstart. cbn [negb].
  change (trim (Code.slice_from 2 firstLine)) with rest. clearbody rest.
  rewrite preloaded_registry.
  set (values := Code.map_values _). vm_compute in values. subst values.
  pose proof (fun u => includes_trans rest u "python") as Hpy.
  pose proof (fun u => includes_trans rest u "sh") as Hsh.
  cbn [List.find existsb default from_option id Code.shebangs].
  destruct (Code.includes rest "node"), (Code.includes rest "deno"); try reflexivity.
  all: cbn [orb].
  all: destruct (Code.includes rest "python") eqn:Epy.
  all: try reflexivity.
  all: destruct (Code.includes rest "python3") eqn:Epy3;
    [by specialize (Hpy "python3" Epy3 eq_refl) |].
  all: destruct (Code.includes rest "python2") eqn:Epy2;
    [by specialize (Hpy "python2" Epy2 eq_refl) |].
  all: cbn [orb].
  all: destruct (Code.includes rest "sh") eqn:Esh.
  all: destruct (Code.includes rest "bash") eqn:Ebash;
    try (by specialize (Hsh "bash" Ebash eq_refl)); try reflexivity.
  all: destruct (Code.includes rest "zsh") eqn:Ezsh;
    try (by specialize (Hsh "zsh" Ezsh eq_refl)); reflexivity.
Qed.

Lemma preloaded_shebangs_witness :
  option_map Code.id
    (Code.detectLanguageByShebang ascii_trim "#!/usr/bin/env fish"
       (Code.preloaded ascii_toLowerCase))
  = Some "shell".
Proof.
  rewrite (preloaded_shebangs ascii_toLowerCase ascii_trim "#!/usr/bin/env fish" eq_refl).
  reflexivity.
Defined.

Lemma preloaded_names_witness :
  option_map Code.id
    (Code.getLanguageByIdOrAlias "js" (Code.preloaded ascii_toLowerCase))
  = Some "typescript".
Proof.
  rewrite (proj2 (preloaded_names ascii_toLowerCase "js"
                    (nth 0 Code.preloaded_specs
                       {| Code.id := ""; Code.aliases := None; Code.extensions := None;
                          Code.shebangs := None; Code.mime := None;
                          Code.comment := Code.c_style |}))).
  - reflexivity.
  - split; [left; reflexivity |]. right. simpl. tauto.
Defined.

(** * More on the enrichment *)

Lemma defaulted_path_nonempty i rps p :
  default VUndefined (Js.assoc_get "path" (default_path i rps)) = VString p ->
  p <> "" \/ truthy_info i = false.
Proof.
  unfold default_path.
  destruct (Js.truthy (default VUndefined (Js.assoc_get "path" rps))) eqn:Et;
    destruct (truthy_info i) eqn:Ei; simpl; try (by right).
  - intros Hp. rewrite Hp in Et. simpl in Et. left. intros ->. done.
  - rewrite JsFacts.assoc_get_set_eq. simpl. intros [= <-]. left.
    destruct i as [s|]; [| done]. simpl in *. intros ->. done.
Qed.

(** X21: a second call right after a call that returned leaves the cell
    as the first call left it, also when the path is empty, but reports
    again: the sink receives once more the issue, if any, of the record's
    validation. *)
Theorem enrichRoute_again :
  forall (prettifyError : ZodError -> string) (nb : NotebookCtx) (st st1 : Store),
    isRouteSupplier (attrs (st_cell st)) = true ->
    enrichRoute prettifyError nb st = (Normal tt, st1) ->
    exists st2 : Store,
      enrichRoute prettifyError nb st1 = (Normal tt, st2)
      /\ st_cell st2 = st_cell st1
      /\ st_issues st2
         = st_issues st1
           ++ issues_for prettifyError nb (st_cell st1) (route_of (st_cell st1)).
Proof.
  intros pe nb st st1 Hsup Hrun.
  destruct (enrichRoute_normal_inv pe nb st st1 Hrun Hsup)
    as (rps & p & Hrps & Hp & H1 & _).
  set (R := derive_props p (default_path (info (st_cell st)) rps)) in *.
  assert (info (st_cell st1) = info (st_cell st)) as Hinfo.
  { destruct (enrichRoute_cases pe nb st)
      as [[_ H] | [[_ [e' H]] | (rps' & p' & _ & _ & H)]];
      rewrite H in Hrun; by inversion Hrun. }
  assert (Js.assoc_get "path" R = Some (VString p)) as HpR.
  { subst R. rewrite derive_props_path.
    destruct (Js.assoc_get "path" _); simpl in Hp; by subst. }
  assert (default_path (info (st_cell st1)) R = R) as Hdef.
  { rewrite Hinfo. unfold default_path at 1. rewrite HpR. simpl.
    destruct (defaulted_path_nonempty _ _ _ Hp) as [Hne | ->].
    - by apply String.eqb_neq in Hne as ->.
    - by rewrite andb_false_r. }
  pose proof (enrichRoute_object pe nb st1 R H1) as Hrun2.
  unfold enrich_outcome in Hrun2. rewrite Hdef, HpR in Hrun2.
  change (default VUndefined (Some (VString p))) with (VString p) in Hrun2.
  cbv beta iota zeta in Hrun2.
  rewrite (derive_props_fixed p R) in Hrun2 by (subst R; apply derive_props_derived).
  rewrite (set_route_props_id st1 R H1) in Hrun2.
  eexists. split; [exact Hrun2 |]. by split.
Qed.

Lemma enrichRoute_again_witness :
  let st := store_example attrs_foo None in
  let st1 := snd (enrichRoute countIssues nb_example st) in
  exists st2 : Store,
    enrichRoute countIssues nb_example st1 = (Normal tt, st2)
    /\ st_cell st2 = st_cell st1
    /\ length (st_issues st2) = 2.
Proof.
  intros st st1.
  destruct (enrichRoute_again countIssues nb_example st st1) as (st2 & H1 & H2 & H3).
  - reflexivity.
  - vm_compute. reflexivity.
  - exists st2. split; [exact H1 | split; [exact H2 |]].
    rewrite H3. vm_compute. reflexivity.
Defined.

(** X22: what the schema lets through: a value that passes
    [pageRouteSchema] is a plain object (never an array or [null]) with
    a string [path], a string [caption] and no member outside the
    fourteen of the schema; and the record made of just a path and a
    caption passes, whatever the two strings are. *)
Theorem pageRouteSchema_accepts :
  (forall v : value,
      Zod.safeParse pageRouteSchema v = ParseSuccess ->
      exists ps p c,
        v = VObject ps
        /\ Js.assoc_get "path" ps = Some (VString p)
        /\ Js.assoc_get "caption" ps = Some (VString c)
        /\ Forall (fun k => In k ["path"; "pathBasename"; "pathBasenameNoExtn";
                                  "pathDirname"; "pathExtnTerminal"; "pathExtns";
                                  "caption"; "siblingOrder"; "url"; "title";
                                  "abbreviatedCaption"; "description"; "elaboration";
                                  "children"])
                  (map fst ps))
  /\ (forall p c : string,
        Zod.safeParse pageRouteSchema
          (VObject [("path", VString p); ("caption", VString c)])
        = ParseSuccess).
Proof.
  split; [| reflexivity].
  intros v Hok.
  assert (Zod.parse pageRouteSchema [] v = []) as Hnil.
  { unfold Zod.safeParse in Hok. by destruct (Zod.parse _ _ _). }
  destruct v as [| | | | | |ps]; try done.
  apply parse_strict_object_nil in Hnil as [Hmem Hkeys].
  repeat (apply Forall_cons_1 in Hmem as [? Hmem]). cbn [fst snd] in *.
  destruct (Js.assoc_get "path" ps) as [[| | | |p| |]|] eqn:Ep; try done.
  destruct (Js.assoc_get "caption" ps) as [[| | | |c| |]|] eqn:Ec; try done.
  exists ps, p, c. split; [done | split; [done | split; [done |]]].
  eapply Forall_impl; [exact Hkeys |].
  intros k. unfold Zod.shape_has. simpl.
  repeat match goal with
         | |- context [String.eqb k ?s] =>
             destruct (String.eqb_spec k s) as [->|_];
             [intros _; repeat first [left; reflexivity | right] |]
         end.
  done.
Qed.

Lemma pageRouteSchema_accepts_witness :
  exists ps p c,
    VObject [("path", VString "a.sql"); ("caption", VString "A")] = VObject ps
    /\ Js.assoc_get "path" ps = Some (VString p)
    /\ Js.assoc_get "caption" ps = Some (VString c).
Proof.
  destruct (proj1 pageRouteSchema_accepts
              (VObject [("path", VString "a.sql"); ("caption", VString "A")]) eq_refl)
    as (ps & p & c & H1 & H2 & H3 & _).
  exists ps, p, c. split; [exact H1 | split; [exact H2 | exact H3]].
Defined.

Lemma assoc_get_without_derived rps k :
  k ∉ derived_keys ->
  Js.assoc_get k (without_derived rps) = Js.assoc_get k rps.
Proof.
  intros Hk. unfold without_derived.
  induction rps as [|[k' v'] r IH]; [done |].
  rewrite filter_cons. simpl. case_decide as Hd; simpl.
  - by rewrite IH.
  - destruct (String.eqb_spec k k') as [->|_]; [done | exact IH].
Qed.

Lemma keys_without_derived shape rps :
  Forall (fun k => Zod.shape_has shape k = true) derived_keys ->
  Forall (fun k => Zod.shape_has shape k = true) (map fst (without_derived rps)) ->
  Forall (fun k => Zod.shape_has shape k = true) (map fst rps).
Proof.
  intros Hd. unfold without_derived.
  induction rps as [|[k v] r IH]; [done |].
  rewrite filter_cons. simpl. case_decide as Hk; simpl.
  - intros [H1 H2]%Forall_cons_1. constructor; [done | by apply IH].
  - intros H. constructor; [| by apply IH].
    rewrite Forall_forall in Hd. apply Hd.
    by destruct (decide (k ∈ derived_keys)).
Qed.

(** X23: derived members supplied by the caller cannot make the
    validation fail: if the route record passes the schema once its five
    derived members are put aside, the call returns normally, registers
    no issue and leaves a record that passes the schema, whatever the
    caller had stored under those five names. *)
Theorem enrichRoute_repairs_derived_members :
  forall (prettifyError : ZodError -> string) (nb : NotebookCtx) (st : Store)
         (rps : list (string * value)),
    route_of (st_cell st) = VObject rps ->
    Zod.safeParse pageRouteSchema (VObject (without_derived rps)) = ParseSuccess ->
    exists st' : Store,
      enrichRoute prettifyError nb st = (Normal tt, st')
      /\ st_issues st' = st_issues st
      /\ Zod.safeParse pageRouteSchema (route_of (st_cell st')) = ParseSuccess.
Proof.
  intros pe nb st rps Hro Hok.
  assert (Zod.parse pageRouteSchema [] (VObject (without_derived rps)) = []) as Hnil.
  { unfold Zod.safeParse in Hok. by destruct (Zod.parse _ _ _). }
  pose proof (route_of_object _ _ Hro) as Hrps.
  apply parse_strict_object_nil in Hnil as [Hmem Hkeys].
  apply keys_without_derived in Hkeys; [| by repeat constructor].
  repeat (apply Forall_cons_1 in Hmem as [? Hmem]). cbn [fst snd] in *.
  repeat match goal with
         | H : context [Js.assoc_get ?k (without_derived rps)] |- _ =>
             first [ rewrite (assoc_get_without_derived rps k) in H
                       by (unfold derived_keys; intros Hin;
                           repeat (apply elem_of_cons in Hin as [Hin|Hin];
                                   [discriminate |]);
                           by apply elem_of_nil in Hin)
                   | clear H ]
         end.
  set (rps1 := default_path (info (st_cell st)) rps).
  assert (exists p, Js.assoc_get "path" rps1 = Some (VString p)) as [p Hp].
  { subst rps1. unfold default_path. destruct (_ && _).
    - rewrite JsFacts.assoc_get_set_eq. by eexists.
    - destruct (Js.assoc_get "path" rps) as [[]|]; try done. by eexists. }
  pose proof (enrichRoute_object pe nb st rps Hrps) as Hrun.
  unfold enrich_outcome in Hrun. fold rps1 in Hrun. rewrite Hp in Hrun.
  change (default VUndefined (Some (VString p))) with (VString p) in Hrun.
  cbv beta iota zeta in Hrun.
  assert (route_of (st_cell (set_route_props (derive_props p rps1) st))
          = VObject (derive_props p rps1)) as Hro'.
  { pose proof (run_read_route_rel st rps (derive_props p rps1) Hrps) as E1.
    rewrite (run_read_route _ (derive_props p rps1)) in E1
      by by eapply has_route_props_set.
    injection E1 as E1.
    transitivity (with_props (route_of (st_cell st)) (derive_props p rps1));
      [exact E1 | by rewrite Hro]. }
  assert (Zod.parse pageRouteSchema [] (VObject (derive_props p rps1)) = []) as Hnil'.
  { apply parse_strict_object_nil. split.
    - pose proof (derive_props_derived p rps1) as HD. unfold derived_keys in HD.
      repeat (apply Forall_cons_1 in HD as [? HD]).
      repeat apply Forall_cons_2; try apply Forall_nil_2; cbn [fst snd].
      all: try (rewrite derive_props_path, Hp; reflexivity).
      all: try match goal with
               | Hd : Js.assoc_get ?k _ = Some (derived_value _ ?k)
                 |- context [Js.assoc_get ?k _] =>
                   rewrite Hd; try reflexivity
               end.
      all: try (rewrite derive_props_other
                  by (unfold derived_keys; intros Hin;
                      repeat (apply elem_of_cons in Hin as [Hin|Hin]; [discriminate |]);
                      by apply elem_of_nil in Hin);
                subst rps1; rewrite default_path_other by done; assumption).
      simpl. apply concat_imap_strings. done.
    - unfold derive_props.
      repeat (apply keys_assoc_set; [reflexivity |]).
      subst rps1. unfold default_path. destruct (_ && _); [| done].
      by apply keys_assoc_set. }
  unfold issues_for, Zod.safeParse in Hrun. rewrite Hro', Hnil', app_nil_r in Hrun.
  eexists. split; [exact Hrun |]. split; [reflexivity |].
  change (Zod.safeParse pageRouteSchema
            (route_of (st_cell (set_route_props (derive_props p rps1) st)))
          = ParseSuccess).
  unfold Zod.safeParse. by rewrite Hro', Hnil'.
Qed.

Lemma enrichRoute_repairs_derived_members_witness :
  let st := store_example
              (VObject [("route", VObject [("path", VString "a.sql");
                                           ("caption", VString "A");
                                           ("pathExtns", VNumber (NFinite 5))])])
              None in
  Zod.safeParse pageRouteSchema (route_of (st_cell st)) <> ParseSuccess
  /\ exists st' : Store,
       enrichRoute countIssues nb_example st = (Normal tt, st')
       /\ st_issues st' = st_issues st
       /\ Zod.safeParse pageRouteSchema (route_of (st_cell st')) = ParseSuccess.
Proof.
  intros st. split; [discriminate |].
  apply (enrichRoute_repairs_derived_members countIssues nb_example st
           [("path", VString "a.sql"); ("caption", VString "A");
            ("pathExtns", VNumber (NFinite 5))]).
  - reflexivity.
  - vm_compute. reflexivity.
Defined.
